(** * xchat-crypto: a shallow embedding of the byte, hex, framing and
    key-encoding utilities, and the properties of its specification.

    The embedding follows [src/unnamed/part_000] (the revision of [index.ts]
    that still declares [class XUtils] with its own hex codec and message
    framer) and [src/src/index.ts]; [xConcat], [keyLength], [xMakeSalt],
    [isEven] and [xKDF] have the same text in both. [xEncode] has not: in
    [part_000] it calls [XUtils.encodeHex], in [src/src/index.ts] it calls
    an [encodeHex] that nothing there declares or imports. Both are
    embedded, as [Rev1.xEncode] and [xEncode]. *)

From Stdlib Require Import ZArith NArith Lia DecimalString.
From Stdlib.Strings Require Import Byte String Ascii.
From stdpp Require Import base option list gmap.

Local Open Scope Z_scope.

(** ** The fragment of the JavaScript runtime the code relies on *)

(** *** Exceptions and fallible computations *)

(** A JavaScript string is a sequence of UTF-16 code units. *)
Definition jsstring := list N.

(** Code units of a literal of the source text. *)
Definition js (s : string) : jsstring :=
  map N_of_ascii (list_ascii_of_string s).

(** The exceptions that can reach a caller of this module: [Error] is
    [throw new Error(message)], the others are raised by the runtime. *)
Inductive exn :=
| Error (message : jsstring)
| TypeError
| RangeError
| SyntaxError
| ReferenceError.

Inductive result (A : Type) :=
| Ok (a : A)
| Throw (e : exn).
Arguments Ok {A} a.
Arguments Throw {A} e.

Global Instance result_ret : MRet result := fun A a => Ok a.

Global Instance result_bind : MBind result := fun A B k m =>
  match m with
  | Ok a => k a
  | Throw e => Throw e
  end.

(** Reading an identifier that no declaration and no import binds. *)
Definition unbound_identifier (A : Type) : result A := Throw ReferenceError.

(** [for (const x of xs) body], with the loop state threaded through. *)
Fixpoint for_of {A S} (xs : list A) (body : S -> A -> result S) (s : S)
  : result S :=
  match xs with
  | [] => Ok s
  | x :: xs' => s' ← body s x; for_of xs' body s'
  end.

(** *** Numbers *)

(** The values [parseInt] can return. *)
Inductive number :=
| NaN
| Num (z : Z).

(** *** Typed arrays *)

Definition to_Z (b : byte) : Z := Z.of_N (Byte.to_N b).

(** ToUint8 on an integer: reduction modulo 2^8. *)
Definition of_Z (z : Z) : byte :=
  default x00 (Byte.of_N (Z.to_N (z mod 256))).

(** ToUint8 on a number: [NaN] becomes 0. *)
Definition ToUint8 (v : number) : byte :=
  match v with
  | NaN => x00
  | Num z => of_Z z
  end.

(** The element type of an [Int8Array] view: the byte read as a
    two's-complement number. *)
Definition to_int8 (b : byte) : Z :=
  if to_Z b <? 128 then to_Z b else to_Z b - 256.

(** [new Uint8Array(n)]: [n] zero bytes. *)
Definition new_Uint8Array (n : nat) : list byte := replicate n x00.

(** [Uint8Array.from(numbers)] and [new Uint8Array(numbers)]. *)
Definition Uint8Array_from (numbers : list Z) : list byte := map of_Z numbers.

(** [target.set(source, offset)]: raises [RangeError] when the source does
    not fit, and otherwise overwrites [length source] elements from
    [offset] on. *)
Definition set (target source : list byte) (offset : nat)
  : result (list byte) :=
  if (offset + length source <=? length target)%nat
  then Ok (take offset target ++ source
             ++ drop (offset + length source) target)
  else Throw RangeError.

(** [a.slice(start, end)] and [a.slice(start)] for indices that are not
    negative (the code passes none); indices beyond the end are clamped. *)
Definition slice (a : list byte) (start end_ : nat) : list byte :=
  take (end_ - start) (drop start a).
Definition slice_from (a : list byte) (start : nat) : list byte :=
  drop start a.

(** The unsigned integer a byte sequence denotes, most significant byte
    first. *)
Definition big_endian (bytes : list byte) : Z :=
  foldl (fun acc b => 256 * acc + to_Z b) 0 bytes.

(** [buf.readUIntBE(offset, byteLength)] of Node's [Buffer]: it reads
    [byteLength] bytes, most significant first, and raises a [RangeError]
    unless [0 < byteLength <= 6] and the bytes lie inside the buffer. *)
Definition readUIntBE (buf : list byte) (offset byteLength : nat) : result Z :=
  if ((1 <=? byteLength) && (byteLength <=? 6)
      && (offset + byteLength <=? length buf))%nat
  then Ok (big_endian (take byteLength (drop offset buf)))
  else Throw RangeError.

(** *** Strings *)

(** LineTerminator: LF, CR, LS, PS. *)
Definition is_line_terminator (c : N) : bool :=
  ((c =? 0x0A) || (c =? 0x0D) || (c =? 0x2028) || (c =? 0x2029))%N.

(** WhiteSpace (TAB, VT, FF, ZWNBSP and the space separators). *)
Definition is_white_space (c : N) : bool :=
  ((c =? 0x09) || (c =? 0x0B) || (c =? 0x0C) || (c =? 0xFEFF)
   || (c =? 0x20) || (c =? 0xA0) || (c =? 0x1680)
   || ((0x2000 <=? c) && (c <=? 0x200A))
   || (c =? 0x202F) || (c =? 0x205F) || (c =? 0x3000))%N.

(** StrWhiteSpaceChar, what [parseInt] and [BigInt] trim. *)
Definition is_str_white_space (c : N) : bool :=
  is_white_space c || is_line_terminator c.

(** The value of a hexadecimal digit, in either case. *)
Definition hex_value (c : N) : option N :=
  if ((48 <=? c) && (c <=? 57))%N then Some (c - 48)%N
  else if ((97 <=? c) && (c <=? 102))%N then Some (c - 87)%N
  else if ((65 <=? c) && (c <=? 70))%N then Some (c - 55)%N
  else None.

Definition is_hex_digit (c : N) : bool :=
  match hex_value c with Some _ => true | None => false end.

(** The lowercase digit [Number.prototype.toString(16)] prints for [d < 16]. *)
Definition hex_digit (d : N) : N :=
  if (d <? 10)%N then (48 + d)%N else (87 + d)%N.

(** The digits of [n] in radix 16, most significant first, in front of
    [acc]; [fuel] bounds the number of digits. *)
Fixpoint hex_digits (fuel : nat) (n : N) (acc : jsstring) : jsstring :=
  match fuel with
  | O => acc
  | S fuel' =>
      let acc' := hex_digit (n mod 16) :: acc in
      if (n / 16 =? 0)%N then acc' else hex_digits fuel' (n / 16)%N acc'
  end.

(** [n.toString(16)] for an integer-valued number [n]. A number below
    [2^k] has at most [k] digits, so the fuel is never exhausted. *)
Definition toString16 (n : Z) : jsstring :=
  let m := Z.abs_N n in
  let digits := hex_digits (S (N.to_nat (N.log2 m))) m [] in
  if n <? 0 then js "-" ++ digits else digits.

(** [n.toString()] for an array length. *)
Definition toString10 (n : nat) : jsstring :=
  js (NilZero.string_of_uint (Nat.to_uint n)).

(** [s.padStart(targetLength, padString)]. *)
Definition padStart (s : jsstring) (targetLength : nat) (padString : jsstring)
  : jsstring :=
  let fillLen := (targetLength - length s)%nat in
  take fillLen (concat (replicate fillLen padString)) ++ s.

(** The longest prefix of radix-16 digits of [s], as a number read from
    [acc], and whether at least one digit was seen. *)
Fixpoint parse_hex_prefix (s : jsstring) (acc : N) (seen : bool) : N * bool :=
  match s with
  | [] => (acc, seen)
  | c :: s' =>
      match hex_value c with
      | Some d => parse_hex_prefix s' (16 * acc + d)%N true
      | None => (acc, seen)
      end
  end.

Fixpoint drop_while (p : N -> bool) (s : jsstring) : jsstring :=
  match s with
  | [] => []
  | c :: s' => if p c then drop_while p s' else s
  end.

Definition trim_start (s : jsstring) : jsstring :=
  drop_while is_str_white_space s.

(** [parseInt(s, 16)]: leading white space is skipped, then an optional
    sign, then an optional [0x] or [0X]; the digits that follow are read up
    to the first character that is not one, and [NaN] is the answer when
    there is none. The value is exact while it stays below [2^53], as it
    does on the groups of one or two characters [decodeHex] passes. *)
Definition parseInt16 (s : jsstring) : number :=
  let s := trim_start s in
  let '(sign, s) :=
    match s with
    | 45%N :: s' => (-1, s')
    | 43%N :: s' => (1, s')
    | _ => (1, s)
    end in
  let s :=
    match s with
    | 48%N :: 120%N :: s' => s'
    | 48%N :: 88%N :: s' => s'
    | _ => s
    end in
  match parse_hex_prefix s 0 false with
  | (mathInt, true) => Num (sign * Z.of_N mathInt)
  | (_, false) => NaN
  end.

(** [s.match(/.{1,2}/g)]: the matches of one or two characters other than
    line terminators, left to right; a line terminator is skipped. *)
Fixpoint match_dot_1_2 (s : jsstring) : list jsstring :=
  match s with
  | [] => []
  | c1 :: s1 =>
      if is_line_terminator c1 then match_dot_1_2 s1
      else
        match s1 with
        | [] => [[c1]]
        | c2 :: s2 =>
            if is_line_terminator c2 then [c1] :: match_dot_1_2 s2
            else [c1; c2] :: match_dot_1_2 s2
        end
  end.

(** [String.prototype.match] with a global pattern answers [null] when
    nothing matches. *)
Definition String_match_dot_1_2 (s : jsstring) : option (list jsstring) :=
  match match_dot_1_2 s with
  | [] => None
  | groups => Some groups
  end.

(** All of [s] read as radix-16 digits from [acc]; [None] when a character
    is not a digit. *)
Fixpoint parse_hex_all (s : jsstring) (acc : N) : option N :=
  match s with
  | [] => Some acc
  | c :: s' =>
      match hex_value c with
      | Some d => parse_hex_all s' (16 * acc + d)%N
      | None => None
      end
  end.

Definition trim_end (s : jsstring) : jsstring :=
  reverse (drop_while is_str_white_space (reverse s)).

(** [BigInt("0x" + digits)]: white space around the literal is trimmed (there
    is none in front of the prefix), and a hexadecimal literal needs at
    least one digit and nothing but digits; anything else is a
    [SyntaxError]. *)
Definition BigInt_0x (digits : jsstring) : result Z :=
  match trim_end digits with
  | [] => Throw SyntaxError
  | d =>
      match parse_hex_all d 0 with
      | Some n => Ok (Z.of_N n)
      | None => Throw SyntaxError
      end
  end.

(** ** External collaborators *)

(** The object serializer ([msgpack-lite]) is used as an opaque pair of
    functions; either may throw. *)
Class Codec (Body : Type) := {
  msgpack_encode : Body -> result (list byte);
  msgpack_decode : list byte -> result Body;
}.

Inductive Curve := X25519 | X448.
Inductive Hash := SHA_256 | SHA_512.

(** [hkdf(ikm, length, {salt, info, hash})] of [futoin-hkdf]. *)
Class Hkdf :=
  hkdf : list byte -> nat -> list byte -> jsstring -> Hash -> list byte.

(** ** The module *)

(** [xConstants] as [part_000] declares it; [src/src/index.ts] has no
    [HEADER_SIZE] and spells [INFO] as "xhat". *)
Record XConstants := {
  CURVE : Curve;
  HASH : Hash;
  KEY_LENGTH : nat;
  INFO : jsstring;
  MIN_OTK_SUPPLY : nat;
  HEADER_SIZE : nat;
}.

Definition xConstants : XConstants := {|
  CURVE := X25519;
  HASH := SHA_512;
  KEY_LENGTH := 32;
  INFO := js "xchat";
  MIN_OTK_SUPPLY := 100;
  HEADER_SIZE := 32;
|}.

(** The body of the loop of [xConcat]; the loop state is the pair of
    [result] and [length]. *)
Definition xConcat_step
  : list byte * nat -> list byte -> result (list byte * nat) :=
  fun '(result, len) array =>
    result ← set result array len;
    Ok (result, (len + length array)%nat).

(** [xConcat(...arrays)]. *)
Definition xConcat (arrays : list (list byte)) : result (list byte) :=
  let totalLength :=
    foldl (fun acc value => (acc + length value)%nat) 0%nat arrays in
  if (length arrays =? 0)%nat then Ok (new_Uint8Array 0)
  else
    let result := new_Uint8Array totalLength in
    '(result, _) ← for_of arrays xConcat_step (result, 0%nat);
    Ok result.

Module XUtils.

(** The loop of [bytesEqual]: [i] is the index and [remaining] is
    [buf1.byteLength - i], so that [i !== buf1.byteLength] reads
    [remaining <> 0]. An element read is [dv !! i], [None] standing for
    [undefined]. *)
Fixpoint bytesEqual_loop (dv1 dv2 : list Z) (i remaining : nat) : bool :=
  match remaining with
  | O => true
  | S remaining' =>
      if decide (dv1 !! i ≠ dv2 !! i) then false
      else bytesEqual_loop dv1 dv2 (S i) remaining'
  end.

Definition bytesEqual (buf1 buf2 : list byte) : bool :=
  if negb (length buf1 =? length buf2)%nat then false
  else
    let dv1 := map to_int8 buf1 in
    let dv2 := map to_int8 buf2 in
    bytesEqual_loop dv1 dv2 0 (length buf1).

(** [decodeHex(hexString, length?)]; the second argument is never read.
    [null!.map] is a [TypeError]. *)
Definition decodeHex (hexString : jsstring) : result (list byte) :=
  if (length hexString =? 0)%nat then Ok (new_Uint8Array 0)
  else
    match String_match_dot_1_2 hexString with
    | None => Throw TypeError
    | Some groups =>
        Ok (map ToUint8 (map (fun byte => parseInt16 byte) groups))
    end.

Definition encodeHex (bytes : list byte) : jsstring :=
  foldl (fun str byte => str ++ padStart (toString16 (to_Z byte)) 2 (js "0"))
    [] bytes.

(** [while (str.length < 12) str = "0" + str]; every turn makes [str]
    longer, so twelve turns are always enough. *)
Fixpoint pad_loop (fuel : nat) (str : jsstring) : jsstring :=
  match fuel with
  | O => str
  | S fuel' =>
      if (length str <? 12)%nat then pad_loop fuel' (js "0" ++ str)
      else str
  end.

(** [numberToUint8Arr(n)] for an integer-valued [n]. *)
Definition numberToUint8Arr (n : Z) : result (list byte) :=
  let str := toString16 n in
  let str := pad_loop 12 str in
  decodeHex str.

Definition uint8ArrToNumber (arr : list byte) : result Z :=
  readUIntBE arr 0 (length arr).

Definition emptyHeader : list byte :=
  new_Uint8Array (HEADER_SIZE xConstants).

Section Framer.
Context {Body : Type} `{!Codec Body}.

Definition unpackMessage (msg : list byte) : result (list byte * Body) :=
  let msgp := msg in
  let msgh := slice msgp 0 (HEADER_SIZE xConstants) in
  msgb ← msgpack_decode (slice_from msgp (HEADER_SIZE xConstants));
  Ok (msgh, msgb).

(** [header || XUtils.emptyHeader()]: an array object is truthy also
    when it is empty, so only an omitted header takes the default. *)
Definition packMessage (msg : Body) (header : option (list byte))
  : result (list byte) :=
  msgb ← msgpack_encode msg;
  let msgh := match header with
              | Some header => header
              | None => emptyHeader
              end in
  xConcat [msgh; msgb].
End Framer.

End XUtils.

Definition isEven (value : Z) : bool :=
  if Z.rem value 2 =? 0 then true else false.

(** [xEncode(curveType, publicKey)] of [src/src/index.ts]; [bytes] is the
    [number[]] the code pushes to. The file imports [KeyRingUtils],
    [ed2curve], [hkdf] and [nacl] and declares no [encodeHex], so the call
    [encodeHex(publicKey)] in the argument of [BigInt] stops at reading the
    identifier. *)
Definition xEncode (curveType : Curve) (publicKey : list byte)
  : result (list byte) :=
  if negb (length publicKey =? 32)%nat then
    Throw (Error (js "Invalid key length, received key of length "
                    ++ toString10 (length publicKey)
                    ++ js " and expected length 32."))
  else
    let bytes : list Z := [] in
    let bytes :=
      match curveType with
      | X25519 => bytes ++ [0]
      | X448 => bytes ++ [1]
      end in
    key ← (encodeHex ← unbound_identifier (list byte -> jsstring);
           BigInt_0x (encodeHex publicKey));
    let bytes := if isEven key then bytes ++ [0] else bytes ++ [1] in
    let bytes := foldl (fun bytes byte => bytes ++ [to_Z byte]) bytes publicKey in
    Ok (Uint8Array_from bytes).

(** [xEncode(curveType, publicKey)] of [part_000] (the revisions that
    declare [class XUtils]): the same text, but for the call, which is
    [XUtils.encodeHex(publicKey)]. *)
Module Rev1.
Definition xEncode (curveType : Curve) (publicKey : list byte)
  : result (list byte) :=
  if negb (length publicKey =? 32)%nat then
    Throw (Error (js "Invalid key length, received key of length "
                    ++ toString10 (length publicKey)
                    ++ js " and expected length 32."))
  else
    let bytes : list Z := [] in
    let bytes :=
      match curveType with
      | X25519 => bytes ++ [0]
      | X448 => bytes ++ [1]
      end in
    key ← BigInt_0x (XUtils.encodeHex publicKey);
    let bytes := if isEven key then bytes ++ [0] else bytes ++ [1] in
    let bytes := foldl (fun bytes byte => bytes ++ [to_Z byte]) bytes publicKey in
    Ok (Uint8Array_from bytes).
End Rev1.

Definition keyLength (curve : Curve) : nat :=
  match curve with
  | X25519 => 32
  | X448 => 57
  end.

(** [xMakeSalt(curve)]: the loop runs [saltLength] times, and each turn
    calls [salt.set([0xff])], whose offset defaults to 0. *)
Definition xMakeSalt (curve : Curve) : result (list byte) :=
  let saltLength := keyLength curve in
  let salt := new_Uint8Array saltLength in
  for_of (seq 0 saltLength)
    (fun salt (i : nat) => set salt (Uint8Array_from [0xff]) 0)
    salt.

Definition xKDF `{!Hkdf} (IKM : list byte) : result (list byte) :=
  salt ← xMakeSalt (CURVE xConstants);
  Ok (hkdf IKM (KEY_LENGTH xConstants) salt (INFO xConstants)
        (HASH xConstants)).

(** ** The store of array objects

    [xConcat] receives references to arrays and writes into an array of its
    own. To tell what happens to the arguments, arrays live in a store,
    arguments are locations, and the same location may be passed twice. *)

Module Store.

Abbreviation loc := nat (only parsing).
Abbreviation store := (gmap nat (list byte)) (only parsing).

(** [new Uint8Array(n)]: a fresh location holding [n] zero bytes. *)
Definition alloc (h : store) (n : nat) : loc * store :=
  let l := fresh (dom h) in (l, <[l := new_Uint8Array n]> h).

(** [target.set(source, offset)] on locations. *)
Definition set_at (h : store) (target source : loc) (offset : nat)
  : result store :=
  a ← set (h !!! target) (h !!! source) offset;
  Ok (<[target := a]> h).

Definition xConcat_step (dest : loc)
  : store * nat -> loc -> result (store * nat) :=
  fun '(h, len) array =>
    h ← set_at h dest array len;
    Ok (h, (len + length (h !!! array))%nat).

Definition xConcat (h : store) (arrays : list loc) : result (loc * store) :=
  let totalLength :=
    foldl (fun acc value => (acc + length (h !!! value))%nat) 0%nat arrays in
  if (length arrays =? 0)%nat then Ok (alloc h 0)
  else
    let '(dest, h) := alloc h totalLength in
    '(h, _) ← for_of arrays (xConcat_step dest) (h, 0%nat);
    Ok (dest, h).

End Store.

(** ** A codec to run the framer on

    [UintCodec] is the MessagePack encoding of the integers 0..255 (positive
    fixint, and uint 8 behind the tag [0xcc]); like [msgpack-lite] it throws
    [Error("BUFFER_SHORTAGE")] when the input ends too early. *)

Module UintCodec.
Definition encode (n : byte) : result (list byte) :=
  if to_Z n <? 128 then Ok [n] else Ok [xcc; n].

Definition decode (bytes : list byte) : result byte :=
  match bytes with
  | [] => Throw (Error (js "BUFFER_SHORTAGE"))
  | t :: rest =>
      if to_Z t <? 128 then Ok t
      else if Byte.eqb t xcc then
        match rest with
        | v :: _ => Ok v
        | [] => Throw (Error (js "BUFFER_SHORTAGE"))
        end
      else Throw (Error (js "Invalid type"))
  end.

#[export] Instance codec : Codec byte := {|
  msgpack_encode := encode;
  msgpack_decode := decode;
|}.
End UintCodec.

(** ** The rest of the module *)

(** [createHmac("sha256", key)], [update(data)] and [digest()] of
    [create-hmac], taken as one function of the key and the data. *)
Class Hmac := createHmac_sha256 : list byte -> list byte -> list byte.

(** [xHMAC(msg, SK)]. *)
Definition xHMAC {Body : Type} `{!Codec Body} `{!Hmac} (msg : Body)
  (SK : list byte) : result (list byte) :=
  packedMsg ← msgpack_encode msg;
  let hmac := createHmac_sha256 SK packedMsg in
  Ok hmac.

(** The first revision of [xEncode] in [part_000]: it prints the length of
    the key instead of checking it. What [console.log] printed is returned
    beside the outcome. This revision takes [encodeHex] from [KeyRingUtils],
    a package outside the repository, so it is an argument here. *)
Module Rev0.
Definition xEncode (encodeHex : list byte -> jsstring)
  (curveType : Curve) (publicKey : list byte)
  : list jsstring * result (list byte) :=
  let console := [toString10 (length publicKey)] in
  (console,
   let bytes : list Z := [] in
   let bytes :=
     match curveType with
     | X25519 => bytes ++ [0]
     | X448 => bytes ++ [1]
     end in
   key ← BigInt_0x (encodeHex publicKey);
   let bytes := if isEven key then bytes ++ [0] else bytes ++ [1] in
   let bytes := foldl (fun bytes byte => bytes ++ [to_Z byte]) bytes publicKey in
   Ok (Uint8Array_from bytes)).
End Rev0.

(** ** Notions the statements use *)

(** The [width] bytes that encode [n] with the most significant byte
    first. *)
Fixpoint big_endian_bytes (width : nat) (n : Z) : list byte :=
  match width with
  | O => []
  | S width' => big_endian_bytes width' (n / 256) ++ [of_Z n]
  end.

(** The [width] lowest radix-16 digits of [n], most significant first. *)
Fixpoint fixed_hex (width : nat) (n : N) : jsstring :=
  match width with
  | O => []
  | S width' => fixed_hex width' (n / 16) ++ [hex_digit (n mod 16)]
  end.

(** The characters [0]..[9] and [a]..[f]. *)
Definition is_lower_hex (c : N) : bool :=
  (((48 <=? c) && (c <=? 57)) || ((97 <=? c) && (c <=? 102)))%N.

(** Strings in which [.] matches every character. *)
Definition no_terminator (s : jsstring) : Prop :=
  Forall (fun c => is_line_terminator c = false) s.

(** A string cut into groups of two characters; the last group has one
    character when the length is odd. *)
Fixpoint pairs (s : jsstring) : list jsstring :=
  match s with
  | [] => []
  | [c] => [[c]]
  | c1 :: c2 :: s' => [c1; c2] :: pairs s'
  end.

(** Strings of hex digits, in either case. *)
Definition hex_string (s : jsstring) : Prop :=
  Forall (fun c => is_hex_digit c = true) s.

(** [A]..[F] turned into [a]..[f], as [toLowerCase] does on hex digits. *)
Definition lower_hex (c : N) : N :=
  if ((65 <=? c) && (c <=? 70))%N then (c + 32)%N else c.

(** * Properties *)

(** ** The code on small inputs *)

Example encodeHex_00ff : XUtils.encodeHex [x00; xff] = js "00ff".
Proof. reflexivity. Qed.

Example decodeHex_00ff : XUtils.decodeHex (js "00ff") = Ok [x00; xff].
Proof. reflexivity. Qed.

Example decodeHex_newline : XUtils.decodeHex [10%N] = Throw TypeError.
Proof. reflexivity. Qed.

Example bytesEqual_123 :
  XUtils.bytesEqual [x01; x02; x03] [x01; x02; x03] = true.
Proof. reflexivity. Qed.

Example bytesEqual_12_123 :
  XUtils.bytesEqual [x01; x02] [x01; x02; x03] = false.
Proof. reflexivity. Qed.

Example toString16_negative : toString16 (-4096) = js "-1000".
Proof. reflexivity. Qed.

Example xConcat_three :
  xConcat [[x01; x02]; []; [x03]] = Ok [x01; x02; x03].
Proof. reflexivity. Qed.

Example set_out_of_bounds : set [x00; x00] [x01; x02] 1 = Throw RangeError.
Proof. reflexivity. Qed.

Example uint8ArrToNumber_seven :
  XUtils.uint8ArrToNumber (replicate 7 x01) = Throw RangeError.
Proof. reflexivity. Qed.

(** ** Bytes *)

Lemma of_Z_to_int8 b : of_Z (to_int8 b) = b.
Proof. destruct b; reflexivity. Qed.

Lemma to_int8_inj a b : to_int8 a = to_int8 b -> a = b.
Proof.
  intros H. rewrite <- (of_Z_to_int8 a), <- (of_Z_to_int8 b). now rewrite H.
Qed.

Lemma of_Z_to_Z b : of_Z (to_Z b) = b.
Proof. destruct b; reflexivity. Qed.

Lemma to_Z_range b : 0 <= to_Z b < 256.
Proof.
  unfold to_Z. pose proof (Byte.to_N_bounded b). lia.
Qed.

(** ** [bytesEqual] *)

Lemma bytesEqual_loop_true dv1 dv2 i k :
  XUtils.bytesEqual_loop dv1 dv2 i k = true <->
  forall j, (i <= j < i + k)%nat -> dv1 !! j = dv2 !! j.
Proof.
  revert i. induction k as [|k IH]; intros i; simpl.
  - split; [intros _ j Hj; lia | reflexivity].
  - destruct (decide (dv1 !! i ≠ dv2 !! i)) as [Hne|Heq].
    + split; [discriminate|]. intros H. exfalso. apply Hne, H. lia.
    + apply dec_stable in Heq. rewrite IH. split.
      * intros H j Hj. destruct (decide (j = i)) as [->|]; [exact Heq|].
        apply H. lia.
      * intros H j Hj. apply H. lia.
Qed.

Lemma bytesEqual_true_iff a b :
  XUtils.bytesEqual a b = true <->
  length a = length b /\ forall i, (i < length a)%nat -> a !! i = b !! i.
Proof.
  unfold XUtils.bytesEqual.
  destruct (Nat.eqb_spec (length a) (length b)) as [Hlen|Hlen]; simpl.
  - rewrite bytesEqual_loop_true. split.
    + intros H. split; [exact Hlen|]. intros i Hi.
      specialize (H i ltac:(lia)). rewrite !list_lookup_fmap in H.
      destruct (a !! i) as [x|] eqn:Ea, (b !! i) as [y|] eqn:Eb;
        simpl in H; try discriminate; [|reflexivity].
      f_equal. apply to_int8_inj. congruence.
    + intros [_ H] j Hj. rewrite !list_lookup_fmap, H by lia. reflexivity.
  - split; [discriminate|]. intros [H _]. contradiction.
Qed.

(** C8: [bytesEqual] answers [false] when the lengths differ, [false] when
    the lengths agree and some position holds different bytes, and [true]
    when the lengths agree and all positions do, the two empty sequences
    included. It is a total function to [bool]: nothing in it can throw. *)
Theorem bytesEqual_spec (a b : list byte) :
  (length a <> length b -> XUtils.bytesEqual a b = false) /\
  (length a = length b ->
   (exists i, (i < length a)%nat /\ a !! i <> b !! i) ->
   XUtils.bytesEqual a b = false) /\
  (length a = length b ->
   (forall i, (i < length a)%nat -> a !! i = b !! i) ->
   XUtils.bytesEqual a b = true) /\
  XUtils.bytesEqual [] [] = true /\
  (XUtils.bytesEqual a b = true <-> a = b).
Proof.
  repeat split.
  - intros Hlen. apply not_true_is_false. rewrite bytesEqual_true_iff.
    intros [H _]. contradiction.
  - intros _ (i & Hi & Hne). apply not_true_is_false.
    rewrite bytesEqual_true_iff. intros [_ H]. apply Hne, H, Hi.
  - intros Hlen H. apply bytesEqual_true_iff. split; assumption.
  - rewrite bytesEqual_true_iff. intros [Hlen H].
    apply list_eq. intros i. destruct (decide (i < length a)%nat) as [Hi|Hi].
    + apply H, Hi.
    + rewrite !lookup_ge_None_2 by lia. reflexivity.
  - intros ->. apply bytesEqual_true_iff. split; reflexivity.
Qed.

Lemma bytesEqual_spec_witness :
  XUtils.bytesEqual [x01; x02] [x01; x02; x03] = false /\
  XUtils.bytesEqual [x01; x02; x03] [x01; x02; x03] = true.
Proof.
  split.
  - apply (proj1 (bytesEqual_spec [x01; x02] [x01; x02; x03])). simpl. lia.
  - apply (proj1 (proj2 (proj2
      (bytesEqual_spec [x01; x02; x03] [x01; x02; x03]))));
      [reflexivity | intros i _; reflexivity].
Defined.

(** ** [xMakeSalt] and [xKDF] *)

Lemma set_head (salt : list byte) (b : byte) :
  (1 <= length salt)%nat -> set salt [b] 0 = Ok (b :: drop 1 salt).
Proof.
  intros H. unfold set. simpl length.
  destruct (Nat.leb_spec (0 + 1) (length salt)); [reflexivity | lia].
Qed.

Lemma salt_loop (turns : list nat) (salt : list byte) :
  (1 <= length salt)%nat ->
  for_of turns (fun salt _ => set salt (Uint8Array_from [0xff]) 0) salt
  = Ok (match turns with [] => salt | _ => xff :: drop 1 salt end).
Proof.
  revert salt. induction turns as [|i turns IH]; intros salt H; [reflexivity|].
  cbn [for_of]. change (Uint8Array_from [0xff]) with [xff].
  rewrite set_head by exact H. cbn [mbind result_bind].
  change (Uint8Array_from [0xff]) with [xff] in IH.
  rewrite IH by (simpl; lia). destruct turns; reflexivity.
Qed.

(** C1: for either curve the salt has [keyLength curve] bytes (32 for
    X25519, 57 for X448), the first is [0xff] and all others are [0x00];
    and this salt, for the curve of [xConstants], is the one [xKDF] hands to
    HKDF. *)
Theorem xMakeSalt_first_byte_only (H : Hkdf) (curve : Curve) (IKM : list byte) :
  keyLength X25519 = 32%nat /\ keyLength X448 = 57%nat /\
  (exists salt,
     xMakeSalt curve = Ok salt /\
     length salt = keyLength curve /\
     salt !! 0%nat = Some xff /\
     (forall i, (0 < i < keyLength curve)%nat -> salt !! i = Some x00) /\
     salt = xff :: replicate (keyLength curve - 1) x00) /\
  (exists salt,
     xMakeSalt (CURVE xConstants) = Ok salt /\
     xKDF IKM = Ok (hkdf IKM (KEY_LENGTH xConstants) salt
                      (INFO xConstants) (HASH xConstants))).
Proof.
  assert (Hsalt : forall c,
             xMakeSalt c = Ok (xff :: replicate (keyLength c - 1) x00)).
  { intros c. unfold xMakeSalt, new_Uint8Array.
    rewrite salt_loop by (rewrite length_replicate; destruct c; simpl; lia).
    destruct c; reflexivity. }
  split; [reflexivity|]. split; [reflexivity|]. split.
  - exists (xff :: replicate (keyLength curve - 1) x00).
    split; [apply Hsalt|]. split; [|split; [reflexivity|split; [|reflexivity]]].
    + simpl. rewrite length_replicate. destruct curve; reflexivity.
    + intros i Hi. destruct i as [|i]; [lia|]. simpl.
      apply lookup_replicate_2. lia.
  - eexists. split; [apply Hsalt|]. unfold xKDF. rewrite Hsalt. reflexivity.
Qed.

(** ** [xEncode]: the length check *)

(** C3: a public key whose length is not 32 makes [xEncode] throw the
    invalid-key-length error, whatever the curve type, and nothing is
    returned. *)
Theorem xEncode_invalid_length (curveType : Curve) (publicKey : list byte) :
  length publicKey <> 32%nat ->
  xEncode curveType publicKey
  = Throw (Error (js "Invalid key length, received key of length "
                    ++ toString10 (length publicKey)
                    ++ js " and expected length 32.")).
Proof.
  intros H. unfold xEncode.
  destruct (Nat.eqb_spec (length publicKey) 32); [contradiction | reflexivity].
Qed.

Lemma xEncode_invalid_length_witness :
  xEncode X448 (replicate 57 x01)
  = Throw (Error (js "Invalid key length, received key of length 57 and expected length 32.")).
Proof.
  apply (xEncode_invalid_length X448 (replicate 57 x01)). simpl. lia.
Defined.

(** ** [xConcat] *)

Lemma total_length (arrays : list (list byte)) (acc : nat) :
  foldl (fun acc value => (acc + length value)%nat) acc arrays
  = (acc + length (concat arrays))%nat.
Proof.
  revert acc. induction arrays as [|a arrays IH]; intros acc; simpl.
  - lia.
  - rewrite IH, length_app. lia.
Qed.

Lemma set_zeros (pre a : list byte) (k : nat) :
  set (pre ++ replicate (length a + k) x00) a (length pre)
  = Ok ((pre ++ a) ++ replicate k x00).
Proof.
  unfold set. rewrite length_app, length_replicate.
  destruct (Nat.leb_spec (length pre + length a) (length pre + (length a + k)));
    [|lia].
  rewrite take_app_length, drop_app_add, drop_replicate_add.
  now rewrite app_assoc.
Qed.

Lemma copy_loop (arrays : list (list byte)) (pre : list byte) (k : nat) :
  for_of arrays xConcat_step
    (pre ++ replicate (length (concat arrays) + k) x00, length pre)
  = Ok ((pre ++ concat arrays) ++ replicate k x00,
        (length pre + length (concat arrays))%nat).
Proof.
  revert pre. induction arrays as [|a arrays IH]; intros pre.
  - simpl. now rewrite app_nil_r, Nat.add_0_r.
  - cbn [for_of concat xConcat_step]. rewrite length_app, <- Nat.add_assoc.
    rewrite set_zeros. cbn [mbind result_bind].
    rewrite <- length_app, IH, length_app, <- !app_assoc.
    do 2 f_equal. lia.
Qed.

Lemma xConcat_concat (arrays : list (list byte)) :
  xConcat arrays = Ok (concat arrays).
Proof.
  unfold xConcat. destruct arrays as [|a arrays]; [reflexivity|].
  cbn [length Nat.eqb]. rewrite total_length, Nat.add_0_l.
  unfold new_Uint8Array.
  pose proof (copy_loop (a :: arrays) [] 0) as H.
  rewrite Nat.add_0_r in H. cbn [app length] in H.
  rewrite H. cbn [mbind result_bind]. now rewrite app_nil_r.
Qed.

(** The loop on the store does to the array at [r] what the loop on values
    does to its [result], and touches nothing else. *)
Lemma store_copy_loop (h : gmap nat (list byte)) (r : nat) (ls : list nat) :
  h !! r = None ->
  Forall (fun l => is_Some (h !! l)) ls ->
  forall cur len,
    for_of ls (Store.xConcat_step r) (<[r := cur]> h, len)
    = '(res, len') ← for_of ((h !!!.) <$> ls) xConcat_step (cur, len);
      Ok (<[r := res]> h, len').
Proof.
  intros Hr Hls. induction Hls as [|l ls [a Hl] _ IH]; intros cur len.
  - reflexivity.
  - assert (l <> r) by congruence.
    cbn [for_of fmap list_fmap Store.xConcat_step xConcat_step].
    unfold Store.set_at.
    rewrite lookup_total_insert_eq, lookup_total_insert_ne by congruence.
    destruct (set cur (h !!! l) len) as [res|e]; [|reflexivity].
    cbn [mbind result_bind]. rewrite insert_insert_eq.
    rewrite lookup_total_insert_ne by congruence. apply IH.
Qed.

Lemma store_xConcat (h : gmap nat (list byte)) (ls : list nat) :
  Forall (fun l => is_Some (h !! l)) ls ->
  let r := fresh (dom h) in
  h !! r = None /\
  Store.xConcat h ls = Ok (r, <[r := concat ((h !!!.) <$> ls)]> h).
Proof.
  intros Hls r.
  assert (Hr : h !! r = None) by apply not_elem_of_dom, is_fresh.
  split; [exact Hr|].
  pose proof (xConcat_concat ((h !!!.) <$> ls)) as Hv.
  unfold Store.xConcat, xConcat in *.
  rewrite length_fmap in Hv.
  destruct ls as [|l ls]; [reflexivity|]. cbn [length Nat.eqb] in *.
  unfold Store.alloc. fold r.
  rewrite store_copy_loop by assumption.
  replace (foldl _ 0%nat ((h !!!.) <$> l :: ls))
    with (foldl (fun acc value => (acc + length (h !!! value))%nat) 0%nat (l :: ls))
    in Hv.
  2:{ generalize 0%nat. generalize (l :: ls). intros ks.
      induction ks as [|k ks IH]; intros acc; [reflexivity|]. simpl. apply IH. }
  destruct (for_of _ xConcat_step _) as [[res len]|e]; [|discriminate].
  cbn [mbind result_bind] in *. congruence.
Qed.

(** C10: [xConcat] returns the arguments' bytes one after the other, in
    argument order: as many bytes as the arguments have together, and the
    empty array when there is no argument. On the store, the result is a
    new array and every array that existed before the call, the arguments
    among them, holds what it held. *)
Theorem xConcat_spec (arrays : list (list byte))
    (h : gmap nat (list byte)) (ls : list nat) :
  Forall2 (fun l a => h !! l = Some a) ls arrays ->
  xConcat arrays = Ok (concat arrays) /\
  length (concat arrays) = sum_list (length <$> arrays) /\
  xConcat [] = Ok [] /\
  exists r h',
    Store.xConcat h ls = Ok (r, h') /\
    h !! r = None /\
    h' !! r = Some (concat arrays) /\
    (forall l a, h !! l = Some a -> h' !! l = Some a) /\
    Forall2 (fun l a => h' !! l = Some a) ls arrays.
Proof.
  intros Hls.
  assert (Hsome : Forall (fun l => is_Some (h !! l)) ls).
  { induction Hls; constructor; eauto. }
  assert (Hval : (h !!!.) <$> ls = arrays).
  { induction Hls as [|l a ls arrays Hl _ IH]; [reflexivity|].
    cbn. rewrite (lookup_total_correct _ _ _ Hl). f_equal.
    apply IH. now inversion Hsome. }
  destruct (store_xConcat h ls Hsome) as [Hr Hx]. rewrite Hval in Hx.
  split; [apply xConcat_concat|]. split.
  { clear. induction arrays as [|a arrays IH]; [reflexivity|].
    cbn. rewrite length_app, IH. reflexivity. }
  split; [reflexivity|].
  assert (Hkeep : forall l a, h !! l = Some a ->
            <[fresh (dom h) := concat arrays]> h !! l = Some a).
  { intros l a Hl. rewrite lookup_insert_ne by congruence. exact Hl. }
  eexists _, _. split; [exact Hx|]. split; [exact Hr|].
  split; [apply lookup_insert_eq|]. split; [exact Hkeep|].
  eapply Forall2_impl; [exact Hls|]. intros l a. apply Hkeep.
Qed.

Lemma xConcat_spec_witness :
  xConcat [[x01; x02]; [x03]; [x01; x02]] = Ok [x01; x02; x03; x01; x02].
Proof.
  apply (xConcat_spec [[x01; x02]; [x03]; [x01; x02]]
           (<[0%nat := [x01; x02]]> (<[1%nat := [x03]]> ∅))
           [0%nat; 1%nat; 0%nat]).
  repeat constructor.
Defined.

(** ** Hex digits *)

Ltac n_cases :=
  repeat match goal with
    | |- context [(?a <=? ?b)%N] => destruct (N.leb_spec a b)
    | |- context [(?a <? ?b)%N] => destruct (N.ltb_spec a b)
    | |- context [(?a =? ?b)%N] => destruct (N.eqb_spec a b)
    end;
  simpl; try reflexivity; try (exfalso; lia); try (f_equal; lia).

Lemma hex_value_digit (d : N) : (d < 16)%N -> hex_value (hex_digit d) = Some d.
Proof.
  intros H. unfold hex_digit. destruct (N.ltb_spec d 10);
    unfold hex_value; n_cases.
Qed.

Lemma hex_digit_lower (d : N) : (d < 16)%N -> is_lower_hex (hex_digit d) = true.
Proof.
  intros H. unfold hex_digit. destruct (N.ltb_spec d 10);
    unfold is_lower_hex; n_cases.
Qed.

Lemma lower_hex_range (c : N) :
  is_lower_hex c = true -> (48 <= c <= 57 \/ 97 <= c <= 102)%N.
Proof.
  unfold is_lower_hex.
  rewrite orb_true_iff, !andb_true_iff, !N.leb_le. tauto.
Qed.

Ltac n_false :=
  repeat match goal with
    | |- context [(?a =? ?b)%N] =>
        rewrite (proj2 (N.eqb_neq a b)) by lia
    | |- context [(?a <=? ?b)%N] =>
        first [ rewrite (proj2 (N.leb_gt a b)) by lia
              | rewrite (proj2 (N.leb_le a b)) by lia ]
    end.

Lemma lower_hex_not_terminator (c : N) :
  is_lower_hex c = true -> is_line_terminator c = false.
Proof.
  intros H%lower_hex_range. unfold is_line_terminator. n_false. reflexivity.
Qed.

Lemma lower_hex_not_space (c : N) :
  is_lower_hex c = true -> is_str_white_space c = false.
Proof.
  intros H. rewrite <- (lower_hex_not_terminator c H).
  apply lower_hex_range in H.
  unfold is_str_white_space, is_white_space, is_line_terminator.
  n_false. reflexivity.
Qed.

Lemma to_Z_of_Z (z : Z) : to_Z (of_Z z) = z mod 256.
Proof.
  unfold to_Z, of_Z.
  pose proof (Z.mod_pos_bound z 256 ltac:(lia)) as Hb.
  pose proof (Byte.to_of_N_option_map (Z.to_N (z mod 256))) as H.
  destruct (N.leb_spec (Z.to_N (z mod 256)) 255); [|lia].
  destruct (Byte.of_N (Z.to_N (z mod 256))) as [b|]; [|discriminate].
  simpl in *. injection H as ->. lia.
Qed.

(** The two characters [encodeHex] prints for a byte. *)
Lemma byte_hex (b : byte) :
  padStart (toString16 (to_Z b)) 2 (js "0")
  = [hex_digit (Byte.to_N b / 16); hex_digit (Byte.to_N b mod 16)].
Proof. destruct b; reflexivity. Qed.

Lemma byte_parse (b : byte) :
  parseInt16 [hex_digit (Byte.to_N b / 16); hex_digit (Byte.to_N b mod 16)]
  = Num (to_Z b).
Proof. destruct b; reflexivity. Qed.

Lemma to_N_lt (b : byte) : (Byte.to_N b < 256)%N.
Proof. pose proof (Byte.to_N_bounded b). lia. Qed.

(** ** [encodeHex] *)

Lemma encodeHex_foldl (bytes : list byte) (str : jsstring) :
  foldl (fun str byte => str ++ padStart (toString16 (to_Z byte)) 2 (js "0"))
    str bytes
  = str ++ XUtils.encodeHex bytes.
Proof.
  unfold XUtils.encodeHex. revert str.
  induction bytes as [|b bytes IH]; intros str; simpl.
  - now rewrite app_nil_r.
  - rewrite IH, (IH (padStart _ _ _)). now rewrite app_assoc.
Qed.

Lemma encodeHex_cons (b : byte) (bytes : list byte) :
  XUtils.encodeHex (b :: bytes)
  = hex_digit (Byte.to_N b / 16) :: hex_digit (Byte.to_N b mod 16)
      :: XUtils.encodeHex bytes.
Proof.
  unfold XUtils.encodeHex at 1. simpl. rewrite encodeHex_foldl, byte_hex.
  reflexivity.
Qed.

Lemma encodeHex_app (bs bs' : list byte) :
  XUtils.encodeHex (bs ++ bs') = XUtils.encodeHex bs ++ XUtils.encodeHex bs'.
Proof.
  induction bs as [|b bs IH]; [reflexivity|].
  simpl. rewrite !encodeHex_cons, IH. reflexivity.
Qed.

Lemma encodeHex_length (bytes : list byte) :
  length (XUtils.encodeHex bytes) = (2 * length bytes)%nat.
Proof.
  induction bytes as [|b bytes IH]; [reflexivity|].
  rewrite encodeHex_cons. simpl. lia.
Qed.

Lemma encodeHex_lower (bytes : list byte) :
  Forall (fun c => is_lower_hex c = true) (XUtils.encodeHex bytes).
Proof.
  induction bytes as [|b bytes IH]; [constructor|].
  pose proof (to_N_lt b).
  rewrite encodeHex_cons. repeat constructor; try assumption;
    apply hex_digit_lower.
  - apply N.Div0.div_lt_upper_bound. lia.
  - apply N.mod_lt. lia.
Qed.

Lemma encodeHex_groups (bytes : list byte) :
  match_dot_1_2 (XUtils.encodeHex bytes)
  = (fun b => [hex_digit (Byte.to_N b / 16); hex_digit (Byte.to_N b mod 16)])
      <$> bytes.
Proof.
  induction bytes as [|b bytes IH]; [reflexivity|].
  pose proof (encodeHex_lower (b :: bytes)) as H.
  rewrite encodeHex_cons in *.
  apply Forall_cons in H as [H1 H]. apply Forall_cons in H as [H2 _].
  cbn [match_dot_1_2 fmap list_fmap].
  rewrite (lower_hex_not_terminator _ H1), (lower_hex_not_terminator _ H2).
  now rewrite IH.
Qed.

Lemma parse_groups (bytes : list byte) :
  map ToUint8
    (map (fun byte => parseInt16 byte)
       ((fun b => [hex_digit (Byte.to_N b / 16);
                   hex_digit (Byte.to_N b mod 16)]) <$> bytes))
  = bytes.
Proof.
  induction bytes as [|b bytes IH]; [reflexivity|].
  rewrite fmap_cons, !map_cons, byte_parse. cbn [ToUint8].
  rewrite of_Z_to_Z. f_equal. exact IH.
Qed.

Lemma decodeHex_encodeHex (bytes : list byte) :
  XUtils.decodeHex (XUtils.encodeHex bytes) = Ok bytes.
Proof.
  unfold XUtils.decodeHex, String_match_dot_1_2.
  rewrite encodeHex_groups, encodeHex_length.
  destruct bytes as [|b bytes]; [reflexivity|].
  rewrite fmap_cons. f_equal. apply (parse_groups (b :: bytes)).
Qed.

(** C4: decoding the hex form of a byte sequence gives the sequence back,
    the empty one included; the hex form has two characters per byte, all of
    them among [0]..[9] and [a]..[f], so it is twice as long as the
    input. *)
Theorem decodeHex_encodeHex_roundtrip (b : list byte) :
  XUtils.decodeHex (XUtils.encodeHex b) = Ok b /\
  XUtils.encodeHex [] = [] /\
  XUtils.encodeHex b
  = concat ((fun x => [hex_digit (Byte.to_N x / 16);
                       hex_digit (Byte.to_N x mod 16)]) <$> b) /\
  Forall (fun c => is_lower_hex c = true) (XUtils.encodeHex b) /\
  length (XUtils.encodeHex b) = (2 * length b)%nat.
Proof.
  split; [apply decodeHex_encodeHex|]. split; [reflexivity|].
  split; [|split; [apply encodeHex_lower | apply encodeHex_length]].
  induction b as [|x b IH]; [reflexivity|].
  rewrite encodeHex_cons, IH. reflexivity.
Qed.

(** ** [xEncode] on a key of 32 bytes *)

Lemma drop_while_head (p : N -> bool) (s : jsstring) :
  match s with [] => True | c :: _ => p c = false end ->
  drop_while p s = s.
Proof. destruct s as [|c s]; [reflexivity|]. simpl. now intros ->. Qed.

Lemma trim_end_id (s : jsstring) :
  Forall (fun c => is_str_white_space c = false) s -> trim_end s = s.
Proof.
  intros H. unfold trim_end. apply Forall_reverse in H.
  rewrite drop_while_head.
  - apply reverse_involutive.
  - destruct H; [exact I | assumption].
Qed.

Lemma parse_hex_all_encodeHex (bytes : list byte) (acc : N) :
  parse_hex_all (XUtils.encodeHex bytes) acc
  = Some (foldl (fun a b => 256 * a + Byte.to_N b)%N acc bytes).
Proof.
  revert acc. induction bytes as [|b bytes IH]; intros acc; [reflexivity|].
  pose proof (to_N_lt b) as Hb.
  rewrite encodeHex_cons. cbn [parse_hex_all foldl].
  rewrite !hex_value_digit.
  - rewrite IH. do 2 f_equal.
    pose proof (N.div_mod (Byte.to_N b) 16 ltac:(lia)). lia.
  - apply N.mod_lt. lia.
  - apply N.Div0.div_lt_upper_bound. lia.
Qed.

Lemma big_endian_N (bytes : list byte) (acc : N) :
  Z.of_N (foldl (fun a b => 256 * a + Byte.to_N b)%N acc bytes)
  = foldl (fun acc b => 256 * acc + to_Z b) (Z.of_N acc) bytes.
Proof.
  revert acc. induction bytes as [|b bytes IH]; intros acc; [reflexivity|].
  cbn [foldl]. rewrite IH. f_equal. unfold to_Z. lia.
Qed.

Lemma BigInt_encodeHex (bytes : list byte) :
  bytes <> [] ->
  BigInt_0x (XUtils.encodeHex bytes) = Ok (big_endian bytes).
Proof.
  intros Hne. destruct bytes as [|b bytes]; [contradiction|].
  pose proof (parse_hex_all_encodeHex (b :: bytes) 0) as Hparse.
  assert (Htrim : trim_end (XUtils.encodeHex (b :: bytes))
                  = XUtils.encodeHex (b :: bytes)).
  { apply trim_end_id. eapply Forall_impl; [apply encodeHex_lower|].
    intros c. apply lower_hex_not_space. }
  unfold BigInt_0x. rewrite Htrim. rewrite encodeHex_cons in *.
  rewrite Hparse, big_endian_N. reflexivity.
Qed.

Lemma isEven_even (value : Z) : isEven value = Z.even value.
Proof.
  unfold isEven. rewrite Z.rem_eq by lia.
  destruct (Z.eqb_spec (value - 2 * (value ÷ 2)) 0) as [H|H];
    destruct (Z.even value) eqn:E; try reflexivity.
  - apply (f_equal negb) in E. rewrite Z.negb_even in E. simpl in E.
    apply Z.odd_spec in E as [k ->].
    rewrite Z.add_comm, Z.mul_comm, Z.quot_add in H by lia.
    change (1 ÷ 2) with 0 in H. lia.
  - apply Z.even_spec in E as [k ->].
    rewrite Z.mul_comm, Z.quot_mul in H by lia. lia.
Qed.

Lemma push_all (bytes : list Z) (publicKey : list byte) :
  foldl (fun bytes byte => bytes ++ [to_Z byte]) bytes publicKey
  = bytes ++ map to_Z publicKey.
Proof.
  revert bytes. induction publicKey as [|b pk IH]; intros bytes; simpl.
  - now rewrite app_nil_r.
  - rewrite IH, <- app_assoc. reflexivity.
Qed.

Lemma Uint8Array_from_bytes (bytes : list byte) :
  Uint8Array_from (map to_Z bytes) = bytes.
Proof.
  unfold Uint8Array_from. induction bytes as [|b bytes IH]; [reflexivity|].
  simpl. now rewrite of_Z_to_Z, IH.
Qed.

Lemma Rev1_xEncode_32 (curveType : Curve) (publicKey : list byte) :
  length publicKey = 32%nat ->
  Rev1.xEncode curveType publicKey
  = Ok ((match curveType with X25519 => x00 | X448 => x01 end)
          :: (if Z.even (big_endian publicKey) then x00 else x01)
          :: publicKey).
Proof.
  intros Hlen. unfold Rev1.xEncode. rewrite Hlen. cbn [Nat.eqb negb].
  rewrite BigInt_encodeHex by (intros ->; discriminate).
  cbn [mbind result_bind]. rewrite isEven_even, push_all.
  unfold Uint8Array_from. rewrite map_app.
  fold (Uint8Array_from (map to_Z publicKey)). rewrite Uint8Array_from_bytes.
  destruct curveType, (Z.even (big_endian publicKey)); reflexivity.
Qed.

(** C2 does not hold of [xEncode] as [src/src/index.ts] has it: on every
    public key of 32 bytes, and for either curve type, the call ends in the
    [ReferenceError] of the undeclared [encodeHex], and no byte is
    returned. *)
Theorem xEncode_ReferenceError (curveType : Curve) (publicKey : list byte) :
  length publicKey = 32%nat ->
  xEncode curveType publicKey = Throw ReferenceError.
Proof.
  intros Hlen. unfold xEncode. rewrite Hlen. reflexivity.
Qed.

Lemma xEncode_ReferenceError_witness :
  xEncode X25519 (replicate 32 x00) = Throw ReferenceError.
Proof.
  apply (xEncode_ReferenceError X25519 (replicate 32 x00)). reflexivity.
Defined.

(** The revision that calls [XUtils.encodeHex] does return an encoding:
    for a public key of 32 bytes [Rev1.xEncode] returns 34 bytes: the curve
    tag (0 for X25519, 1 for X448), then 0 or 1 as the integer the key
    denotes, most significant byte first, is even or odd, then the key
    itself. *)
Theorem Rev1_xEncode_spec (curveType : Curve) (publicKey : list byte) :
  length publicKey = 32%nat ->
  exists out,
    Rev1.xEncode curveType publicKey = Ok out /\
    length out = 34%nat /\
    out !! 0%nat = Some (match curveType with X25519 => x00 | X448 => x01 end) /\
    out !! 1%nat = Some (if Z.even (big_endian publicKey) then x00 else x01) /\
    (forall i, (2 <= i <= 33)%nat -> out !! i = publicKey !! (i - 2)%nat) /\
    drop 2 out = publicKey.
Proof.
  intros Hlen. eexists. split; [apply Rev1_xEncode_32, Hlen|].
  split; [simpl; now rewrite Hlen|]. split; [reflexivity|].
  split; [reflexivity|]. split; [|reflexivity].
  intros i Hi. destruct i as [|[|i]]; try lia. simpl.
  now rewrite Nat.sub_0_r.
Qed.

Lemma Rev1_xEncode_spec_witness :
  exists out,
    Rev1.xEncode X448 (replicate 31 x00 ++ [x03]) = Ok out /\
    length out = 34%nat /\
    out !! 0%nat = Some x01 /\
    out !! 1%nat = Some x01 /\
    (forall i, (2 <= i <= 33)%nat ->
               out !! i = (replicate 31 x00 ++ [x03]) !! (i - 2)%nat) /\
    drop 2 out = replicate 31 x00 ++ [x03].
Proof.
  apply (Rev1_xEncode_spec X448 (replicate 31 x00 ++ [x03])). reflexivity.
Defined.

(** ** [decodeHex] on an arbitrary string *)

(** Induction two characters at a time. *)
Lemma pairs_ind (P : jsstring -> Prop) :
  P [] -> (forall c, P [c]) ->
  (forall c1 c2 s, P s -> P (c1 :: c2 :: s)) ->
  forall s, P s.
Proof.
  intros H0 H1 H2 s.
  assert (H : P s /\ forall c, P (c :: s)); [|apply H].
  induction s as [|a s [IH1 IH2]]; split; auto.
Qed.

Lemma match_pairs (s : jsstring) :
  no_terminator s -> match_dot_1_2 s = pairs s.
Proof.
  unfold no_terminator.
  induction s as [|c|c1 c2 s IH] using pairs_ind; intros H.
  - reflexivity.
  - apply Forall_cons in H as [H _]. simpl. now rewrite H.
  - apply Forall_cons in H as [H1 H]. apply Forall_cons in H as [H2 H].
    simpl. rewrite H1, H2. f_equal. apply IH, H.
Qed.

Lemma pairs_length (s : jsstring) :
  length (pairs s) = Nat.div2 (S (length s)).
Proof.
  induction s as [|c|c1 c2 s IH] using pairs_ind; try reflexivity.
  cbn [pairs length Nat.div2]. now rewrite IH.
Qed.

Lemma decodeHex_pairs (s : jsstring) :
  no_terminator s ->
  XUtils.decodeHex s = Ok (map ToUint8 (map parseInt16 (pairs s))).
Proof.
  intros H. unfold XUtils.decodeHex, String_match_dot_1_2.
  rewrite (match_pairs s H).
  destruct s as [|c1 [|c2 s]]; reflexivity.
Qed.

(** C5, as the code has it: [decodeHex] checks nothing. The empty string
    gives the empty byte sequence, and every string without a line
    terminator, of odd length or with characters that are no hex digits as
    well, gives one byte per group of two characters: what [parseInt] reads
    in the group, modulo 256, and 0 for [NaN]. *)
Theorem decodeHex_no_validation (hexString : jsstring) :
  no_terminator hexString ->
  XUtils.decodeHex [] = Ok [] /\
  exists bytes,
    XUtils.decodeHex hexString = Ok bytes /\
    bytes = map ToUint8 (map parseInt16 (pairs hexString)) /\
    length bytes = Nat.div2 (S (length hexString)).
Proof.
  intros H. split; [reflexivity|]. eexists.
  split; [apply decodeHex_pairs, H|]. split; [reflexivity|].
  rewrite !length_map. apply pairs_length.
Qed.

Lemma decodeHex_no_validation_witness :
  XUtils.decodeHex [] = Ok [] /\
  exists bytes,
    XUtils.decodeHex (js "0g1") = Ok bytes /\
    bytes = map ToUint8 (map parseInt16 (pairs (js "0g1"))) /\
    length bytes = Nat.div2 (S (length (js "0g1"))).
Proof.
  apply (decodeHex_no_validation (js "0g1")).
  repeat constructor.
Defined.

(** The claim as the specification words it fails: a string of odd length
    and a string of characters that are no hex digits both decode to a byte
    array, and no error is raised. *)
Lemma decodeHex_malformed_counterexample :
  Nat.odd (length (js "abc")) = true /\
  XUtils.decodeHex (js "abc") = Ok [xab; x0c] /\
  forallb is_hex_digit (js "zz") = false /\
  XUtils.decodeHex (js "zz") = Ok [x00].
Proof. repeat split. Qed.

(** ** [numberToUint8Arr] and [uint8ArrToNumber] *)

Lemma pow16_succ (k : nat) : (16 ^ N.of_nat (S k) = 16 * 16 ^ N.of_nat k)%N.
Proof. rewrite Nat2N.inj_succ, N.pow_succ_r'. reflexivity. Qed.

Lemma div16_lt (n : N) (k : nat) :
  (n < 16 ^ N.of_nat (S k))%N -> (n / 16 < 16 ^ N.of_nat k)%N.
Proof.
  rewrite pow16_succ. intros H. apply N.Div0.div_lt_upper_bound. exact H.
Qed.

Lemma fixed_hex_small (k : nat) (n : N) :
  (n < 16)%N -> fixed_hex (S k) n = replicate k 48%N ++ [hex_digit n].
Proof.
  intros H. revert n H. induction k as [|k IH]; intros n H.
  - simpl. now rewrite N.mod_small.
  - change (fixed_hex (S (S k)) n)
      with (fixed_hex (S k) (n / 16) ++ [hex_digit (n mod 16)]).
    rewrite N.div_small, N.mod_small by exact H.
    rewrite IH by lia. change (hex_digit 0) with 48%N.
    now rewrite <- replicate_S_end.
Qed.

Lemma hex_digits_S (k : nat) (n : N) (acc : jsstring) :
  hex_digits (S k) n acc
  = if (n / 16 =? 0)%N then hex_digit (n mod 16) :: acc
    else hex_digits k (n / 16) (hex_digit (n mod 16) :: acc).
Proof. reflexivity. Qed.

(** With fuel for all its digits, [hex_digits] prints [n] without leading
    zeros; filled up with zeros these are the fixed-width digits. *)
Lemma hex_digits_fixed (f : nat) (n : N) (acc : jsstring) :
  (n < 16 ^ N.of_nat (S f))%N ->
  exists ds,
    hex_digits (S f) n acc = ds ++ acc /\
    (length ds <= S f)%nat /\
    replicate (S f - length ds) 48%N ++ ds = fixed_hex (S f) n.
Proof.
  revert n acc. induction f as [|f IH]; intros n acc Hn.
  - exists [hex_digit (n mod 16)]. simpl in *.
    split; [now destruct (n / 16 =? 0)%N|]. split; [lia|reflexivity].
  - rewrite hex_digits_S. destruct (N.eqb_spec (n / 16) 0) as [H0|H0].
    + exists [hex_digit (n mod 16)]. split; [reflexivity|]. split; [simpl; lia|].
      assert (n < 16)%N.
      { pose proof (N.div_mod n 16 ltac:(lia)).
        pose proof (N.mod_lt n 16 ltac:(lia)). lia. }
      rewrite fixed_hex_small, N.mod_small by assumption. reflexivity.
    + destruct (IH (n / 16)%N (hex_digit (n mod 16) :: acc)) as (ds & E & L & F).
      { apply div16_lt, Hn. }
      exists (ds ++ [hex_digit (n mod 16)]).
      split; [now rewrite E, <- app_assoc|].
      split; [rewrite length_app; simpl; lia|].
      change (fixed_hex (S (S f)) n)
        with (fixed_hex (S f) (n / 16) ++ [hex_digit (n mod 16)]).
      rewrite <- F, length_app, app_assoc. simpl length.
      do 3 f_equal. lia.
Qed.

Lemma hex_digits_fuel (f1 f2 : nat) (n : N) (acc : jsstring) :
  (n < 16 ^ N.of_nat (S f1))%N -> (n < 16 ^ N.of_nat (S f2))%N ->
  hex_digits (S f1) n acc = hex_digits (S f2) n acc.
Proof.
  revert f2 n acc. induction f1 as [|f1 IH]; intros f2 n acc H1 H2;
    rewrite !hex_digits_S; destruct (N.eqb_spec (n / 16) 0) as [H0|H0];
    try reflexivity.
  - exfalso. apply H0, N.div_small. exact H1.
  - destruct f2 as [|f2].
    + exfalso. apply H0, N.div_small. exact H2.
    + apply IH; apply div16_lt; assumption.
Qed.

Lemma log2_fuel (n : N) : (n < 16 ^ N.of_nat (S (N.to_nat (N.log2 n))))%N.
Proof.
  rewrite Nat2N.inj_succ, N2Nat.id.
  destruct (N.eq_dec n 0%N) as [->|Hn]; [reflexivity|].
  destruct (N.log2_spec n ltac:(lia)) as [_ H].
  eapply N.lt_le_trans; [exact H|].
  apply N.pow_le_mono_l. lia.
Qed.

Lemma pad_loop_fill (fuel : nat) (str : jsstring) :
  XUtils.pad_loop fuel str
  = replicate (Nat.min fuel (12 - length str)) 48%N ++ str.
Proof.
  revert str. induction fuel as [|fuel IH]; intros str; [reflexivity|].
  cbn [XUtils.pad_loop]. destruct (Nat.ltb_spec (length str) 12) as [H|H].
  - rewrite IH. change (js "0" ++ str) with (48%N :: str). simpl length.
    replace (Nat.min (S fuel) (12 - length str))
      with (S (Nat.min fuel (12 - S (length str)))) by lia.
    rewrite replicate_S_end, <- app_assoc. reflexivity.
  - replace (Nat.min (S fuel) (12 - length str)) with 0%nat by lia.
    reflexivity.
Qed.

(** Twelve turns are enough: the loop condition is false at the end. *)
Lemma pad_loop_done (str : jsstring) :
  (12 <= length (XUtils.pad_loop 12 str))%nat.
Proof.
  rewrite pad_loop_fill, length_app, length_replicate. lia.
Qed.

(** The string [numberToUint8Arr] decodes, for a number that fits. *)
Lemma padded_digits (n : Z) :
  0 <= n < 2 ^ 48 ->
  XUtils.pad_loop 12 (toString16 n) = fixed_hex 12 (Z.to_N n).
Proof.
  intros Hn. unfold toString16.
  destruct (Z.ltb_spec n 0) as [?|_]; [lia|].
  replace (Z.abs_N n) with (Z.to_N n) by lia.
  assert (H12 : (Z.to_N n < 16 ^ N.of_nat 12)%N).
  { change (16 ^ N.of_nat 12)%N with (Z.to_N (2 ^ 48)). lia. }
  rewrite (hex_digits_fuel _ 11 _ _ (log2_fuel _) H12).
  destruct (hex_digits_fixed 11 (Z.to_N n) [] H12) as (ds & E & L & F).
  rewrite E, app_nil_r, pad_loop_fill, <- F. f_equal. f_equal. lia.
Qed.

Lemma encodeHex_big_endian (width : nat) (n : Z) :
  0 <= n ->
  XUtils.encodeHex (big_endian_bytes width n)
  = fixed_hex (2 * width) (Z.to_N n).
Proof.
  revert n. induction width as [|w IH]; intros n Hn; [reflexivity|].
  cbn [big_endian_bytes]. rewrite encodeHex_app, encodeHex_cons.
  replace (2 * S w)%nat with (S (S (2 * w))) by lia.
  cbn [fixed_hex]. rewrite IH by (apply Z.div_pos; lia).
  change (XUtils.encodeHex []) with (@nil N).
  rewrite <- app_assoc. cbn [app].
  assert (Hb : Byte.to_N (of_Z n) = (Z.to_N n mod 256)%N).
  { pose proof (to_Z_of_Z n) as H. unfold to_Z in H.
    pose proof (Z.mod_pos_bound n 256 ltac:(lia)).
    rewrite <- (N2Z.id (Byte.to_N _)), H, Z2N.inj_mod by lia. reflexivity. }
  set (m := Z.to_N n) in *.
  assert (H1 : Z.to_N (n / 256) = (m / 16 / 16)%N).
  { rewrite N.Div0.div_div. change (16 * 16)%N with (Z.to_N 256).
    unfold m. rewrite Z2N.inj_div by lia. reflexivity. }
  assert (H2 : (m mod 256 / 16 = (m / 16) mod 16)%N).
  { change 256%N with (16 * 16)%N.
    rewrite N.Div0.mod_mul_r, N.mul_comm, N.div_add by lia.
    rewrite (N.div_small (_ mod 16)) by (apply N.mod_lt; lia). reflexivity. }
  assert (H3 : ((m mod 256) mod 16 = m mod 16)%N).
  { change 256%N with (16 * 16)%N.
    rewrite N.Div0.mod_mul_r, N.mul_comm, N.Div0.mod_add.
    apply N.Div0.mod_mod. }
  rewrite Hb, H1, H2, H3. reflexivity.
Qed.

Lemma big_endian_snoc (bytes : list byte) (b : byte) :
  big_endian (bytes ++ [b]) = 256 * big_endian bytes + to_Z b.
Proof. unfold big_endian. now rewrite foldl_app. Qed.

Lemma big_endian_bytes_length (width : nat) (n : Z) :
  length (big_endian_bytes width n) = width.
Proof.
  revert n. induction width as [|w IH]; intros n; [reflexivity|].
  cbn [big_endian_bytes]. rewrite length_app, IH. simpl. lia.
Qed.

Lemma big_endian_of_bytes (width : nat) (n : Z) :
  big_endian (big_endian_bytes width n) = n mod 256 ^ Z.of_nat width.
Proof.
  revert n. induction width as [|w IH]; intros n.
  - simpl. now rewrite Z.mod_1_r.
  - cbn [big_endian_bytes]. rewrite big_endian_snoc, IH, to_Z_of_Z.
    rewrite Nat2Z.inj_succ, Z.pow_succ_r by lia.
    rewrite Z.rem_mul_r by lia. lia.
Qed.

Lemma big_endian_bound (bytes : list byte) :
  0 <= big_endian bytes < 256 ^ Z.of_nat (length bytes).
Proof.
  induction bytes as [|b bytes IH] using rev_ind.
  { change (0 <= 0 < 1). lia. }
  rewrite big_endian_snoc, length_app, Nat2Z.inj_add, Z.pow_add_r by lia.
  pose proof (to_Z_range b). simpl Z.of_nat. change (256 ^ 1) with 256. nia.
Qed.

Lemma numberToUint8Arr_in_range (n : Z) :
  0 <= n < 2 ^ 48 -> XUtils.numberToUint8Arr n = Ok (big_endian_bytes 6 n).
Proof.
  intros Hn. unfold XUtils.numberToUint8Arr.
  rewrite padded_digits by exact Hn.
  change 12%nat with (2 * 6)%nat.
  rewrite <- (encodeHex_big_endian 6 n) by lia.
  apply decodeHex_encodeHex.
Qed.

Lemma uint8ArrToNumber_Ok (arr : list byte) (v : Z) :
  XUtils.uint8ArrToNumber arr = Ok v ->
  v = big_endian arr /\ (1 <= length arr <= 6)%nat.
Proof.
  unfold XUtils.uint8ArrToNumber, readUIntBE.
  destruct (Nat.leb_spec 1 (length arr)); [|discriminate].
  destruct (Nat.leb_spec (length arr) 6); [|discriminate].
  destruct (Nat.leb_spec (0 + length arr) (length arr)); [|discriminate].
  cbn [andb drop]. rewrite firstn_all. intros [= <-]. split; [reflexivity|lia].
Qed.

Lemma uint8ArrToNumber_bytes (width : nat) (n : Z) :
  (1 <= width <= 6)%nat -> 0 <= n < 256 ^ Z.of_nat width ->
  XUtils.uint8ArrToNumber (big_endian_bytes width n) = Ok n.
Proof.
  intros Hw Hn. unfold XUtils.uint8ArrToNumber, readUIntBE.
  rewrite big_endian_bytes_length.
  destruct (Nat.leb_spec 1 width); [|lia].
  destruct (Nat.leb_spec width 6); [|lia].
  destruct (Nat.leb_spec (0 + width) width); [|lia].
  cbn [andb drop].
  rewrite drop_0, take_ge by (rewrite big_endian_bytes_length; lia).
  rewrite big_endian_of_bytes, Z.mod_small by exact Hn. reflexivity.
Qed.

Lemma hex_digits_lower (fuel : nat) (n : N) (acc : jsstring) :
  Forall (fun c => is_lower_hex c = true) acc ->
  Forall (fun c => is_lower_hex c = true) (hex_digits fuel n acc).
Proof.
  revert n acc. induction fuel as [|fuel IH]; intros n acc H; [exact H|].
  assert (Forall (fun c => is_lower_hex c = true) (hex_digit (n mod 16) :: acc)).
  { constructor; [|exact H]. apply hex_digit_lower, N.mod_lt. lia. }
  rewrite hex_digits_S. destruct (n / 16 =? 0)%N; [assumption|].
  apply IH. assumption.
Qed.

Lemma padded_no_terminator (n : Z) :
  no_terminator (XUtils.pad_loop 12 (toString16 n)).
Proof.
  assert (Hd : forall f m, no_terminator (hex_digits f m [])).
  { intros f m. eapply Forall_impl; [apply hex_digits_lower; constructor|].
    intros c. apply lower_hex_not_terminator. }
  rewrite pad_loop_fill. apply Forall_app. split.
  - apply Forall_replicate. reflexivity.
  - unfold toString16. destruct (n <? 0); [|apply Hd].
    apply Forall_app. split; [repeat constructor | apply Hd].
Qed.

(** C9, as the code has it: for [0 <= n < 2^48] the six bytes encode [n]
    with the most significant byte first and [uint8ArrToNumber] reads [n]
    back. Nothing checks the range: for every integer [n],
    [numberToUint8Arr] returns a byte array and raises no error, and reading
    that array back answers [n] only when [n] was in range. *)
Theorem numberToUint8Arr_spec (n : Z) :
  (0 <= n < 2 ^ 48 ->
   XUtils.numberToUint8Arr n = Ok (big_endian_bytes 6 n) /\
   length (big_endian_bytes 6 n) = 6%nat /\
   big_endian (big_endian_bytes 6 n) = n /\
   XUtils.uint8ArrToNumber (big_endian_bytes 6 n) = Ok n) /\
  (exists bytes,
     XUtils.numberToUint8Arr n = Ok bytes /\
     (XUtils.uint8ArrToNumber bytes = Ok n <-> 0 <= n < 2 ^ 48)).
Proof.
  split.
  - intros Hn. split; [apply numberToUint8Arr_in_range, Hn|].
    split; [apply big_endian_bytes_length|]. split.
    + rewrite big_endian_of_bytes. apply Z.mod_small.
      change (256 ^ Z.of_nat 6) with (2 ^ 48). exact Hn.
    + apply uint8ArrToNumber_bytes; [lia|].
      change (256 ^ Z.of_nat 6) with (2 ^ 48). exact Hn.
  - unfold XUtils.numberToUint8Arr at 1.
    rewrite decodeHex_pairs by apply padded_no_terminator.
    remember (map ToUint8 (map parseInt16
                (pairs (XUtils.pad_loop 12 (toString16 n))))) as bs eqn:Ebs.
    exists bs. split; [reflexivity|]. split.
    + intros [Hv Hlen]%uint8ArrToNumber_Ok.
      pose proof (big_endian_bound bs) as Hb.
      assert (256 ^ Z.of_nat (length bs) <= 256 ^ 6)
        by (apply Z.pow_le_mono_r; lia).
      change (256 ^ 6) with (2 ^ 48) in *. lia.
    + intros Hn.
      pose proof (numberToUint8Arr_in_range n Hn) as E.
      unfold XUtils.numberToUint8Arr in E.
      rewrite decodeHex_pairs, <- Ebs in E by apply padded_no_terminator.
      assert (Hbs : bs = big_endian_bytes 6 n) by congruence.
      rewrite Hbs. apply uint8ArrToNumber_bytes; [lia|].
      change (256 ^ Z.of_nat 6) with (2 ^ 48). exact Hn.
Qed.

Lemma numberToUint8Arr_spec_witness :
  XUtils.numberToUint8Arr 258 = Ok [x00; x00; x00; x00; x01; x02] /\
  length (big_endian_bytes 6 258) = 6%nat /\
  big_endian (big_endian_bytes 6 258) = 258 /\
  XUtils.uint8ArrToNumber (big_endian_bytes 6 258) = Ok 258.
Proof.
  apply (proj1 (numberToUint8Arr_spec 258)). lia.
Defined.

(** The claim as the specification words it fails: a negative number and a
    number of 49 bits are both converted and no [RangeError] is raised; the
    bytes of [-1] read back as 255. *)
Lemma numberToUint8Arr_range_counterexample :
  XUtils.numberToUint8Arr (-1) = Ok [x00; x00; x00; x00; x00; xff] /\
  XUtils.uint8ArrToNumber [x00; x00; x00; x00; x00; xff] = Ok 255 /\
  XUtils.numberToUint8Arr (2 ^ 48) = Ok [x10; x00; x00; x00; x00; x00; x00].
Proof. repeat split. Qed.

(** ** The message framer *)

Section FramerProperties.
Context {Body : Type} `{!Codec Body}.

Lemma packMessage_bytes (body : Body) (header : option (list byte)) :
  XUtils.packMessage body header
  = encoded ← msgpack_encode body;
    Ok (default XUtils.emptyHeader header ++ encoded).
Proof.
  unfold XUtils.packMessage.
  destruct (msgpack_encode body) as [encoded|e]; [|reflexivity].
  cbn [mbind result_bind]. rewrite xConcat_concat.
  destruct header; cbn [concat default]; now rewrite app_nil_r.
Qed.

Lemma unpackMessage_app (header rest : list byte) :
  length header = HEADER_SIZE xConstants ->
  XUtils.unpackMessage (header ++ rest)
  = body ← msgpack_decode rest; Ok (header, body).
Proof.
  intros Hlen. unfold XUtils.unpackMessage, slice, slice_from.
  rewrite Nat.sub_0_r, drop_0.
  rewrite take_app_length', drop_app_length' by (symmetry; exact Hlen).
  reflexivity.
Qed.

(** C6: a header of exactly 32 bytes and a body the codec gives back come
    out of [unpackMessage (packMessage body header)] as they went in; the
    packed message is the header followed by the encoded body, and with no
    header given the 32 zero bytes take its place. *)
Theorem unpack_pack (body : Body) (header encoded : list byte) :
  length header = 32%nat ->
  msgpack_encode body = Ok encoded ->
  msgpack_decode encoded = Ok body ->
  (packed ← XUtils.packMessage body (Some header);
   XUtils.unpackMessage packed) = Ok (header, body) /\
  XUtils.packMessage body (Some header) = Ok (header ++ encoded) /\
  XUtils.packMessage body None = Ok (replicate 32 x00 ++ encoded) /\
  (packed ← XUtils.packMessage body None;
   XUtils.unpackMessage packed) = Ok (replicate 32 x00, body).
Proof.
  intros Hlen Henc Hdec. rewrite !packMessage_bytes, Henc.
  cbn [mbind result_bind default].
  rewrite !unpackMessage_app, Hdec by (exact Hlen || reflexivity).
  repeat split.
Qed.

(** [unpackMessage] does not look at the length of its input: an input of
    fewer than 32 bytes is taken whole where the header is sliced, and the
    codec is given the empty sequence. *)
Lemma unpackMessage_short (msg : list byte) :
  (length msg < 32)%nat ->
  XUtils.unpackMessage msg = body ← msgpack_decode []; Ok (msg, body).
Proof.
  intros Hlen. unfold XUtils.unpackMessage, slice, slice_from.
  cbn [HEADER_SIZE xConstants].
  rewrite Nat.sub_0_r, drop_0, take_ge, drop_ge by lia. reflexivity.
Qed.

(** C7: on every input of fewer than 32 bytes [unpackMessage] fails and
    returns no header and body. The error is the one the codec raises on
    the empty byte sequence it is handed, which for [msgpack-lite] is
    [Error("BUFFER_SHORTAGE")]: the codec is outside the repository, so that
    it rejects the empty sequence is the hypothesis. *)
Theorem unpackMessage_truncated (msg : list byte) (e : exn) :
  msgpack_decode [] = Throw e ->
  (length msg < 32)%nat ->
  XUtils.unpackMessage msg = Throw e /\
  forall header body, XUtils.unpackMessage msg <> Ok (header, body).
Proof.
  intros Hdec Hlen. rewrite unpackMessage_short, Hdec by exact Hlen.
  split; [reflexivity | discriminate].
Qed.
End FramerProperties.

Lemma unpack_pack_witness :
  let C := UintCodec.codec in
  (packed ← XUtils.packMessage (Codec0 := C) xc8 (Some (replicate 32 x07));
   XUtils.unpackMessage (Codec0 := C) packed) = Ok (replicate 32 x07, xc8) /\
  XUtils.packMessage (Codec0 := C) xc8 (Some (replicate 32 x07))
  = Ok (replicate 32 x07 ++ [xcc; xc8]) /\
  XUtils.packMessage (Codec0 := C) xc8 None
  = Ok (replicate 32 x00 ++ [xcc; xc8]) /\
  (packed ← XUtils.packMessage (Codec0 := C) xc8 None;
   XUtils.unpackMessage (Codec0 := C) packed) = Ok (replicate 32 x00, xc8).
Proof.
  apply (unpack_pack (Codec0 := UintCodec.codec) xc8 (replicate 32 x07)
           [xcc; xc8]); reflexivity.
Defined.

Lemma unpackMessage_truncated_witness :
  XUtils.unpackMessage (Codec0 := UintCodec.codec) [x01; x02; x03]
  = Throw (Error (js "BUFFER_SHORTAGE")) /\
  forall header body,
    XUtils.unpackMessage (Codec0 := UintCodec.codec) [x01; x02; x03]
    <> Ok (header, body).
Proof.
  apply (unpackMessage_truncated (Codec0 := UintCodec.codec)
           [x01; x02; x03] (Error (js "BUFFER_SHORTAGE")));
    [reflexivity | simpl; lia].
Defined.

(** * Further properties of the module *)

(** ** [decodeHex]: when it throws *)

Lemma match_terminator (c : N) (s : jsstring) :
  is_line_terminator c = true -> match_dot_1_2 (c :: s) = match_dot_1_2 s.
Proof. intros H. simpl. now rewrite H. Qed.

Lemma match_not_terminator (c : N) (s : jsstring) :
  is_line_terminator c = false -> match_dot_1_2 (c :: s) <> [].
Proof.
  intros H. simpl. rewrite H. destruct s as [|c2 s]; [discriminate|].
  destruct (is_line_terminator c2); discriminate.
Qed.

Lemma match_nil_iff (s : jsstring) :
  match_dot_1_2 s = [] <-> Forall (fun c => is_line_terminator c = true) s.
Proof.
  induction s as [|c s IH]; [split; [constructor | reflexivity]|].
  destruct (is_line_terminator c) eqn:Hc.
  - rewrite match_terminator, IH by exact Hc. split.
    + intros H. constructor; assumption.
    + intros H. now apply Forall_cons in H as [_ H].
  - split.
    + intros H. now apply match_not_terminator in H.
    + intros H. apply Forall_cons in H as [H _]. congruence.
Qed.

(** [decodeHex] throws only on a string that is not empty and consists of
    line terminators alone, and what it throws then is the [TypeError] of
    calling [map] on [null]; on every other string it returns a byte
    array. *)
Theorem decodeHex_throws (hexString : jsstring) :
  (XUtils.decodeHex hexString = Throw TypeError <->
   hexString <> [] /\
   Forall (fun c => is_line_terminator c = true) hexString) /\
  (forall e, XUtils.decodeHex hexString = Throw e -> e = TypeError) /\
  (Exists (fun c => is_line_terminator c = false) hexString ->
   exists bytes, XUtils.decodeHex hexString = Ok bytes).
Proof.
  pose proof (match_nil_iff hexString) as Hnil.
  unfold XUtils.decodeHex, String_match_dot_1_2.
  destruct hexString as [|c s].
  { cbn. repeat split; try discriminate.
    - intros [H _]. contradiction.
    - intros H. inversion H. }
  cbn [length Nat.eqb].
  destruct (match_dot_1_2 (c :: s)) as [|g gs] eqn:E.
  - repeat split; try discriminate.
    + apply Hnil. reflexivity.
    + intros e [= <-]. reflexivity.
    + intros Hex. apply Exists_exists in Hex as (x & Hin & Hx).
      pose proof (proj1 Hnil eq_refl) as Hall.
      rewrite Forall_forall in Hall. specialize (Hall x Hin). congruence.
  - repeat split; try discriminate.
    + intros [_ H]. apply Hnil in H. discriminate.
    + intros _. eexists. reflexivity.
Qed.

(** ** Hex strings and concatenation *)

Lemma encodeHex_concat (arrays : list (list byte)) :
  XUtils.encodeHex (concat arrays) = concat (XUtils.encodeHex <$> arrays).
Proof.
  induction arrays as [|a arrays IH]; [reflexivity|].
  cbn [concat fmap list_fmap]. rewrite encodeHex_app. f_equal. exact IH.
Qed.

(** The hex form of a concatenation is the concatenation of the hex forms:
    [encodeHex(xConcat(a1, ..., an))] is
    [encodeHex(a1) + ... + encodeHex(an)]. *)
Theorem encodeHex_xConcat (arrays : list (list byte)) :
  (joined ← xConcat arrays; Ok (XUtils.encodeHex joined))
  = Ok (concat (XUtils.encodeHex <$> arrays)).
Proof.
  rewrite xConcat_concat. cbn [mbind result_bind].
  now rewrite encodeHex_concat.
Qed.

Lemma pairs_app (s1 s2 : jsstring) :
  Nat.even (length s1) = true -> pairs (s1 ++ s2) = pairs s1 ++ pairs s2.
Proof.
  induction s1 as [|c|c1 c2 s1 IH] using pairs_ind; intros H.
  - reflexivity.
  - discriminate.
  - cbn [app pairs]. f_equal. apply IH. exact H.
Qed.

Lemma decodeHex_split (s1 s2 : jsstring) :
  Nat.even (length s1) = true ->
  no_terminator s1 -> no_terminator s2 ->
  XUtils.decodeHex (s1 ++ s2)
  = b1 ← XUtils.decodeHex s1; b2 ← XUtils.decodeHex s2; xConcat [b1; b2].
Proof.
  intros Heven H1 H2.
  rewrite !decodeHex_pairs by (try apply Forall_app; auto).
  cbn [mbind result_bind]. rewrite xConcat_concat, pairs_app by exact Heven.
  cbn [concat]. now rewrite app_nil_r, !map_app.
Qed.

(** Decoding splits at an even offset: when [s1] has even length and
    neither string holds a line terminator, [decodeHex(s1 + s2)] is the
    bytes of [decodeHex(s1)] followed by those of [decodeHex(s2)]. *)
Theorem decodeHex_app (s1 s2 : jsstring) :
  Nat.even (length s1) = true ->
  no_terminator s1 -> no_terminator s2 ->
  XUtils.decodeHex (s1 ++ s2)
  = b1 ← XUtils.decodeHex s1; b2 ← XUtils.decodeHex s2; xConcat [b1; b2].
Proof. apply decodeHex_split. Qed.

Lemma decodeHex_app_witness :
  XUtils.decodeHex (js "00ff" ++ js "a")
  = b1 ← XUtils.decodeHex (js "00ff");
    b2 ← XUtils.decodeHex (js "a"); xConcat [b1; b2].
Proof.
  apply (decodeHex_app (js "00ff") (js "a")); [reflexivity| |];
    repeat constructor.
Defined.

(** Concatenating in two steps gives what one call gives:
    [xConcat(xConcat(...as), xConcat(...bs))] is [xConcat(...as, ...bs)]. *)
Theorem xConcat_nested (arrays1 arrays2 : list (list byte)) :
  (left ← xConcat arrays1; right ← xConcat arrays2; xConcat [left; right])
  = xConcat (arrays1 ++ arrays2).
Proof.
  rewrite !xConcat_concat. cbn [mbind result_bind].
  rewrite xConcat_concat, concat_app. cbn [concat]. now rewrite app_nil_r.
Qed.

(** ** From a hex string to bytes and back *)

Lemma hex_digit_enum (c : N) :
  is_hex_digit c = true ->
  (c = 48 \/ c = 49 \/ c = 50 \/ c = 51 \/ c = 52 \/ c = 53 \/ c = 54 \/
   c = 55 \/ c = 56 \/ c = 57 \/ c = 65 \/ c = 66 \/ c = 67 \/ c = 68 \/
   c = 69 \/ c = 70 \/ c = 97 \/ c = 98 \/ c = 99 \/ c = 100 \/ c = 101 \/
   c = 102)%N.
Proof.
  unfold is_hex_digit, hex_value. intros H.
  destruct (N.leb_spec 48 c), (N.leb_spec c 57), (N.leb_spec 97 c),
    (N.leb_spec c 102), (N.leb_spec 65 c), (N.leb_spec c 70);
    simpl in H; try discriminate; lia.
Qed.

Ltac hex_enum H :=
  apply hex_digit_enum in H;
  repeat (destruct H as [H|H]; [subst|]); subst.

Lemma hex_pair (c1 c2 : N) :
  is_hex_digit c1 = true -> is_hex_digit c2 = true ->
  padStart (toString16 (to_Z (ToUint8 (parseInt16 [c1; c2])))) 2 (js "0")
  = [lower_hex c1; lower_hex c2].
Proof. intros H1 H2. hex_enum H1; hex_enum H2; reflexivity. Qed.

Lemma hex_not_terminator (c : N) :
  is_hex_digit c = true -> is_line_terminator c = false.
Proof. intros H. hex_enum H; reflexivity. Qed.

Lemma hex_string_no_terminator (s : jsstring) :
  hex_string s -> no_terminator s.
Proof.
  intros H. eapply Forall_impl; [exact H|]. apply hex_not_terminator.
Qed.

Lemma encodeHex_pairs (s : jsstring) :
  Nat.even (length s) = true -> hex_string s ->
  XUtils.encodeHex (map ToUint8 (map parseInt16 (pairs s))) = map lower_hex s.
Proof.
  unfold hex_string.
  induction s as [|c|c1 c2 s IH] using pairs_ind; intros Heven Hs.
  - reflexivity.
  - discriminate.
  - apply Forall_cons in Hs as [H1 Hs]. apply Forall_cons in Hs as [H2 Hs].
    cbn [pairs map].
    change (?b :: ?bs) with ([b] ++ bs) at 1. rewrite encodeHex_app.
    change (XUtils.encodeHex [?b])
      with (padStart (toString16 (to_Z b)) 2 (js "0")).
    rewrite hex_pair by assumption.
    cbn [app]. do 2 f_equal. apply IH; assumption.
Qed.

(** The round trip from the string side: a string of hex digits of even
    length, in either case, decodes to half as many bytes, and encoding
    these gives the string back in lower case. *)
Theorem encodeHex_decodeHex (hexString : jsstring) :
  Nat.even (length hexString) = true ->
  hex_string hexString ->
  exists bytes,
    XUtils.decodeHex hexString = Ok bytes /\
    length bytes = Nat.div2 (length hexString) /\
    XUtils.encodeHex bytes = map lower_hex hexString.
Proof.
  intros Heven Hs. eexists.
  split; [apply decodeHex_pairs, hex_string_no_terminator, Hs|].
  split; [|apply encodeHex_pairs; assumption].
  rewrite !length_map, pairs_length.
  clear Hs. induction hexString as [|c|c1 c2 s IH] using pairs_ind;
    [reflexivity | discriminate |].
  cbn [length Nat.div2]. f_equal. apply IH, Heven.
Qed.

Lemma encodeHex_decodeHex_witness :
  exists bytes,
    XUtils.decodeHex (js "00Ff") = Ok bytes /\
    length bytes = Nat.div2 (length (js "00Ff")) /\
    XUtils.encodeHex bytes = map lower_hex (js "00Ff").
Proof.
  apply (encodeHex_decodeHex (js "00Ff")); [reflexivity|].
  repeat constructor.
Defined.

Lemma bytesEqual_eq (a b : list byte) :
  XUtils.bytesEqual a b = true <-> a = b.
Proof.
  rewrite bytesEqual_true_iff. split.
  - intros [Hlen H]. apply list_eq. intros i.
    destruct (decide (i < length a)%nat) as [Hi|Hi]; [apply H, Hi|].
    rewrite !lookup_ge_None_2 by lia. reflexivity.
  - intros ->. split; reflexivity.
Qed.

(** Comparing the hex forms is comparing the bytes: [bytesEqual(a, b)]
    holds exactly when [encodeHex(a)] and [encodeHex(b)] are the same
    string. *)
Theorem bytesEqual_encodeHex (a b : list byte) :
  XUtils.bytesEqual a b = true <-> XUtils.encodeHex a = XUtils.encodeHex b.
Proof.
  rewrite bytesEqual_eq. split; [now intros ->|].
  intros H. pose proof (decodeHex_encodeHex a) as Ha.
  rewrite H, decodeHex_encodeHex in Ha. congruence.
Qed.

(** ** Numbers and bytes, the other way round *)

Lemma big_endian_bytes_zero (width : nat) :
  big_endian_bytes width 0 = replicate width x00.
Proof.
  induction width as [|w IH]; [reflexivity|].
  cbn [big_endian_bytes]. change (0 / 256) with 0. rewrite IH.
  change (of_Z 0) with x00. now rewrite <- replicate_S_end.
Qed.

Lemma big_endian_bytes_of (arr : list byte) (width : nat) :
  (length arr <= width)%nat ->
  big_endian_bytes width (big_endian arr)
  = replicate (width - length arr) x00 ++ arr.
Proof.
  revert width. induction arr as [|b arr IH] using rev_ind; intros width H.
  - change (big_endian []) with 0.
    now rewrite big_endian_bytes_zero, app_nil_r, Nat.sub_0_r.
  - rewrite length_app in *. simpl length in *.
    destruct width as [|w]; [lia|].
    cbn [big_endian_bytes]. rewrite big_endian_snoc.
    pose proof (to_Z_range b) as Hb.
    replace ((256 * big_endian arr + to_Z b) / 256) with (big_endian arr).
    2:{ rewrite Z.mul_comm, Z.div_add_l, Z.div_small by lia. lia. }
    rewrite IH by lia.
    assert (Hlast : of_Z (256 * big_endian arr + to_Z b) = b).
    { rewrite <- (of_Z_to_Z b) at 2. unfold of_Z.
      rewrite Z.add_comm, Z.mul_comm, Z.mod_add by lia. reflexivity. }
    rewrite Hlast, <- app_assoc. do 2 f_equal. lia.
Qed.

Lemma uint8ArrToNumber_big_endian (arr : list byte) :
  (1 <= length arr <= 6)%nat ->
  XUtils.uint8ArrToNumber arr = Ok (big_endian arr).
Proof.
  intros H. unfold XUtils.uint8ArrToNumber, readUIntBE.
  destruct (Nat.leb_spec 1 (length arr)); [|lia].
  destruct (Nat.leb_spec (length arr) 6); [|lia].
  destruct (Nat.leb_spec (0 + length arr) (length arr)); [|lia].
  cbn [andb]. now rewrite drop_0, firstn_all.
Qed.

(** Reading a number from one to six bytes and writing it back gives the
    same bytes behind as many zero bytes as were missing to six; on six
    bytes it gives the bytes themselves. *)
Theorem numberToUint8Arr_uint8ArrToNumber (arr : list byte) :
  (1 <= length arr <= 6)%nat ->
  (n ← XUtils.uint8ArrToNumber arr; XUtils.numberToUint8Arr n)
  = Ok (replicate (6 - length arr) x00 ++ arr).
Proof.
  intros H. rewrite uint8ArrToNumber_big_endian by exact H.
  cbn [mbind result_bind].
  pose proof (big_endian_bound arr) as Hb.
  assert (256 ^ Z.of_nat (length arr) <= 256 ^ 6)
    by (apply Z.pow_le_mono_r; lia).
  change (256 ^ 6) with (2 ^ 48) in *.
  rewrite numberToUint8Arr_in_range by lia.
  f_equal. apply big_endian_bytes_of. lia.
Qed.

Lemma numberToUint8Arr_uint8ArrToNumber_witness :
  (n ← XUtils.uint8ArrToNumber [x01; x02]; XUtils.numberToUint8Arr n)
  = Ok [x00; x00; x00; x00; x01; x02].
Proof.
  apply (numberToUint8Arr_uint8ArrToNumber [x01; x02]). simpl. lia.
Defined.

(** ** Numbers that do not fit in six bytes *)

Lemma hex_digits_grows (fuel : nat) (n : N) (acc : jsstring) :
  (length acc <= length (hex_digits fuel n acc))%nat.
Proof.
  revert n acc. induction fuel as [|fuel IH]; intros n acc; [reflexivity|].
  rewrite hex_digits_S. destruct (n / 16 =? 0)%N; [simpl; lia|].
  etransitivity; [|apply IH]. simpl. lia.
Qed.

Lemma hex_digits_long (k fuel : nat) (n : N) (acc : jsstring) :
  (16 ^ N.of_nat k <= n)%N -> (k < fuel)%nat ->
  (length acc + S k <= length (hex_digits fuel n acc))%nat.
Proof.
  revert fuel n acc. induction k as [|k IH]; intros fuel n acc Hn Hf;
    (destruct fuel as [|fuel]; [lia|]); rewrite hex_digits_S.
  - destruct (n / 16 =? 0)%N; [simpl; lia|].
    etransitivity; [|apply hex_digits_grows]. simpl. lia.
  - rewrite pow16_succ in Hn.
    assert (Hq : (16 ^ N.of_nat k <= n / 16)%N)
      by (apply N.div_le_lower_bound; lia).
    assert (0 < 16 ^ N.of_nat k)%N by (apply N.neq_0_lt_0, N.pow_nonzero; lia).
    destruct (N.eqb_spec (n / 16) 0) as [H0|_]; [lia|].
    specialize (IH fuel (n / 16)%N (hex_digit (n mod 16) :: acc) Hq
                  ltac:(lia)).
    simpl length in IH. lia.
Qed.

Lemma toString16_long (n : Z) :
  2 ^ 48 <= n -> (13 <= length (toString16 n))%nat.
Proof.
  intros Hn. unfold toString16.
  destruct (Z.ltb_spec n 0) as [?|_]; [lia|].
  replace (Z.abs_N n) with (Z.to_N n) by lia.
  assert (Hm : (16 ^ N.of_nat 12 <= Z.to_N n)%N).
  { change (16 ^ N.of_nat 12)%N with (Z.to_N (2 ^ 48)). lia. }
  pose proof (hex_digits_long 12 (S (N.to_nat (N.log2 (Z.to_N n))))
                (Z.to_N n) [] Hm) as H.
  simpl length in H. apply H.
  assert (N.log2 (16 ^ N.of_nat 12) <= N.log2 (Z.to_N n))%N
    by (apply N.log2_le_mono, Hm).
  change (N.log2 (16 ^ N.of_nat 12)) with 48%N in *. lia.
Qed.

(** A number of more than 48 bits is still written out, to seven bytes or
    more, and it is reading these back that raises the [RangeError]. *)
Theorem numberToUint8Arr_too_large (n : Z) :
  2 ^ 48 <= n ->
  exists bytes,
    XUtils.numberToUint8Arr n = Ok bytes /\
    (7 <= length bytes)%nat /\
    XUtils.uint8ArrToNumber bytes = Throw RangeError.
Proof.
  intros Hn. unfold XUtils.numberToUint8Arr.
  rewrite decodeHex_pairs by apply padded_no_terminator.
  eexists. split; [reflexivity|].
  assert (Hlen : (7 <= length (map ToUint8 (map parseInt16
             (pairs (XUtils.pad_loop 12 (toString16 n))))))%nat).
  { rewrite !length_map, pairs_length, pad_loop_fill, length_app,
      length_replicate.
    pose proof (toString16_long n Hn) as H.
    rewrite Nat.div2_div.
    replace (Nat.min 12 (12 - length (toString16 n))) with 0%nat by lia.
    apply (Nat.div_le_lower_bound _ 2 7); lia. }
  split; [exact Hlen|].
  unfold XUtils.uint8ArrToNumber, readUIntBE.
  destruct (Nat.leb_spec 1 (length (map ToUint8 (map parseInt16
             (pairs (XUtils.pad_loop 12 (toString16 n))))))); [|lia].
  destruct (Nat.leb_spec (length (map ToUint8 (map parseInt16
             (pairs (XUtils.pad_loop 12 (toString16 n)))))) 6); [lia|].
  reflexivity.
Qed.

Lemma numberToUint8Arr_too_large_witness :
  exists bytes,
    XUtils.numberToUint8Arr (2 ^ 48) = Ok bytes /\
    (7 <= length bytes)%nat /\
    XUtils.uint8ArrToNumber bytes = Throw RangeError.
Proof.
  apply (numberToUint8Arr_too_large (2 ^ 48)). lia.
Defined.

(** ** More on [xEncode] *)

Lemma big_endian_even (bytes : list byte) (b : byte) :
  Z.even (big_endian (bytes ++ [b])) = Z.even (to_Z b).
Proof.
  rewrite big_endian_snoc, Z.even_add, Z.even_mul.
  change (Z.even 256) with true. cbn [orb]. now destruct (Z.even (to_Z b)).
Qed.

(** In the revision that calls [XUtils.encodeHex], the parity byte of an
    encoded key is the lowest bit of the last byte of the key: the bytes
    before it play no part. *)
Theorem Rev1_xEncode_parity_last_byte (curveType : Curve)
    (publicKey : list byte) (b : byte) :
  length publicKey = 32%nat ->
  last publicKey = Some b ->
  exists out,
    Rev1.xEncode curveType publicKey = Ok out /\
    out !! 1%nat = Some (if Z.testbit (to_Z b) 0 then x01 else x00).
Proof.
  intros Hlen Hlast. apply last_Some in Hlast as [init ->].
  eexists. split; [apply Rev1_xEncode_32, Hlen|]. cbn [lookup list_lookup].
  rewrite big_endian_even, Z.bit0_odd, <- Z.negb_even.
  now destruct (Z.even (to_Z b)).
Qed.

Lemma Rev1_xEncode_parity_last_byte_witness :
  exists out,
    Rev1.xEncode X25519 (replicate 31 xff ++ [x02]) = Ok out /\
    out !! 1%nat = Some (if Z.testbit (to_Z x02) 0 then x01 else x00).
Proof.
  apply (Rev1_xEncode_parity_last_byte X25519 (replicate 31 xff ++ [x02]) x02);
    reflexivity.
Defined.

Lemma Rev1_xEncode_Ok_length (curveType : Curve) (publicKey out : list byte) :
  Rev1.xEncode curveType publicKey = Ok out -> length publicKey = 32%nat.
Proof.
  unfold Rev1.xEncode.
  destruct (Nat.eqb_spec (length publicKey) 32); [trivial | discriminate].
Qed.

(** In the revision that calls [XUtils.encodeHex], an encoding tells its
    curve type and its key: two calls of [xEncode] that return the same
    bytes were given the same arguments. *)
Theorem Rev1_xEncode_injective (curveType1 curveType2 : Curve)
    (publicKey1 publicKey2 out : list byte) :
  Rev1.xEncode curveType1 publicKey1 = Ok out ->
  Rev1.xEncode curveType2 publicKey2 = Ok out ->
  curveType1 = curveType2 /\ publicKey1 = publicKey2.
Proof.
  intros H1 H2.
  pose proof (Rev1_xEncode_Ok_length _ _ _ H1) as L1.
  pose proof (Rev1_xEncode_Ok_length _ _ _ H2) as L2.
  rewrite Rev1_xEncode_32 in H1, H2 by assumption.
  injection H1 as <-. injection H2 as Htag _ Hkey.
  split; [|congruence].
  destruct curveType1, curveType2; (reflexivity || discriminate).
Qed.

Lemma Rev1_xEncode_injective_witness :
  X448 = X448 /\ replicate 32 x05 = replicate 32 x05.
Proof.
  apply (Rev1_xEncode_injective X448 X448 (replicate 32 x05)
           (replicate 32 x05) (x01 :: x01 :: replicate 32 x05)); reflexivity.
Defined.

Lemma Rev0_xEncode_eq (curveType : Curve) (publicKey : list byte) :
  Rev0.xEncode XUtils.encodeHex curveType publicKey
  = ([toString10 (length publicKey)],
     match publicKey with
     | [] => Throw SyntaxError
     | _ =>
         Ok ((match curveType with X25519 => x00 | X448 => x01 end)
               :: (if Z.even (big_endian publicKey) then x00 else x01)
               :: publicKey)
     end).
Proof.
  unfold Rev0.xEncode. f_equal.
  destruct publicKey as [|b publicKey]; [reflexivity|].
  rewrite BigInt_encodeHex by discriminate.
  cbn [mbind result_bind]. rewrite isEven_even, push_all.
  unfold Uint8Array_from. rewrite map_app.
  fold (Uint8Array_from (map to_Z (b :: publicKey))).
  rewrite Uint8Array_from_bytes.
  destruct curveType, (Z.even (big_endian (b :: publicKey))); reflexivity.
Qed.

(** The revision of [xEncode] that prints the length and does not check
    it, run with the module's own [encodeHex]: a key of any length but zero
    is encoded, to two bytes more than it has, and the empty key ends in the
    [SyntaxError] of [BigInt("0x")]. The length is printed in both cases. *)
Theorem Rev0_xEncode_any_length (curveType : Curve) (publicKey : list byte) :
  Rev0.xEncode XUtils.encodeHex curveType publicKey
  = ([toString10 (length publicKey)],
     match publicKey with
     | [] => Throw SyntaxError
     | _ =>
         Ok ((match curveType with X25519 => x00 | X448 => x01 end)
               :: (if Z.even (big_endian publicKey) then x00 else x01)
               :: publicKey)
     end).
Proof. apply Rev0_xEncode_eq. Qed.

(** The two revisions of [xEncode] in [part_000], the one that prints the
    length and the one that checks it, return the same bytes on a key of 32
    bytes; on a key of any other length but zero the older one returns an
    encoding where the newer one throws. *)
Theorem Rev0_Rev1_xEncode_agree (curveType : Curve) (publicKey : list byte) :
  (length publicKey = 32%nat ->
   snd (Rev0.xEncode XUtils.encodeHex curveType publicKey)
   = Rev1.xEncode curveType publicKey) /\
  (length publicKey <> 32%nat -> publicKey <> [] ->
   (exists out,
      snd (Rev0.xEncode XUtils.encodeHex curveType publicKey) = Ok out /\
      length out = (2 + length publicKey)%nat) /\
   exists e, Rev1.xEncode curveType publicKey = Throw e).
Proof.
  rewrite Rev0_xEncode_eq. cbn [snd]. split.
  - intros Hlen. rewrite Rev1_xEncode_32 by exact Hlen.
    destruct publicKey; [discriminate | reflexivity].
  - intros Hlen Hne. split.
    + destruct publicKey; [contradiction|]. eexists. split; reflexivity.
    + eexists. unfold Rev1.xEncode.
      destruct (Nat.eqb_spec (length publicKey) 32); [contradiction|].
      reflexivity.
Qed.

Lemma Rev0_Rev1_xEncode_agree_witness :
  snd (Rev0.xEncode XUtils.encodeHex X25519 (replicate 32 x09))
  = Rev1.xEncode X25519 (replicate 32 x09).
Proof.
  apply (proj1 (Rev0_Rev1_xEncode_agree X25519 (replicate 32 x09))).
  reflexivity.
Defined.

(** ** More on the framer and the MAC *)

Section FramerMore.
Context {Body : Type} `{!Codec Body} `{!Hmac}.

(** [packMessage] fails only when the codec fails to encode the body, and
    then with the codec's error: no header, and no length of header or
    body, makes the concatenation throw. *)
Theorem packMessage_throws (body : Body) (header : option (list byte))
    (e : exn) :
  XUtils.packMessage body header = Throw e <-> msgpack_encode body = Throw e.
Proof.
  rewrite packMessage_bytes.
  destruct (msgpack_encode body) as [encoded|e']; cbn [mbind result_bind];
    split; congruence.
Qed.

(** The size of the header is not checked. Of a header longer than 32
    bytes, [unpackMessage] returns the first 32 bytes as the header and
    gives the rest, followed by the encoded body, to the codec. *)
Theorem unpack_pack_long_header (body : Body)
    (header1 header2 encoded : list byte) :
  length header1 = 32%nat ->
  msgpack_encode body = Ok encoded ->
  (packed ← XUtils.packMessage body (Some (header1 ++ header2));
   XUtils.unpackMessage packed)
  = decoded ← msgpack_decode (header2 ++ encoded); Ok (header1, decoded).
Proof.
  intros Hlen Henc. rewrite packMessage_bytes, Henc.
  cbn [mbind result_bind from_option id]. rewrite <- app_assoc.
  apply unpackMessage_app. exact Hlen.
Qed.

(** Of a header shorter than 32 bytes, [unpackMessage] returns the header
    filled up with the first bytes of the encoded body, and gives the codec
    what is left of the encoded body. *)
Theorem unpack_pack_short_header (body : Body) (header encoded : list byte) :
  (length header <= 32)%nat ->
  msgpack_encode body = Ok encoded ->
  (packed ← XUtils.packMessage body (Some header);
   XUtils.unpackMessage packed)
  = decoded ← msgpack_decode (drop (32 - length header) encoded);
    Ok (header ++ take (32 - length header) encoded, decoded).
Proof.
  intros Hlen Henc. rewrite packMessage_bytes, Henc.
  cbn [mbind result_bind from_option id].
  unfold XUtils.unpackMessage, slice, slice_from.
  cbn [HEADER_SIZE xConstants].
  rewrite Nat.sub_0_r, drop_0, take_app, drop_app.
  rewrite take_ge, drop_ge by lia. reflexivity.
Qed.

(** The MAC is computed over the bytes that [packMessage] puts behind the
    header, and over nothing else: for a header of 32 bytes,
    [xHMAC(msg, SK)] is the HMAC of the packed message without its first 32
    bytes. *)
Theorem xHMAC_packed_body (msg : Body) (SK header packed : list byte) :
  length header = 32%nat ->
  XUtils.packMessage msg (Some header) = Ok packed ->
  xHMAC msg SK = Ok (createHmac_sha256 SK (drop 32 packed)).
Proof.
  intros Hlen. rewrite packMessage_bytes. unfold xHMAC.
  destruct (msgpack_encode msg) as [encoded|e]; [|discriminate].
  cbn [mbind result_bind from_option id]. intros [= <-].
  now rewrite drop_app_length' by (symmetry; exact Hlen).
Qed.
End FramerMore.

Lemma unpack_pack_long_header_witness :
  let C := UintCodec.codec in
  (packed ← XUtils.packMessage (Codec0 := C) xc8
              (Some (replicate 32 x07 ++ [x05]));
   XUtils.unpackMessage (Codec0 := C) packed)
  = Ok (replicate 32 x07, x05).
Proof.
  apply (unpack_pack_long_header (Codec0 := UintCodec.codec) xc8
           (replicate 32 x07) [x05] [xcc; xc8]); reflexivity.
Defined.

Lemma unpack_pack_short_header_witness :
  let C := UintCodec.codec in
  (packed ← XUtils.packMessage (Codec0 := C) xc8 (Some (replicate 30 x07));
   XUtils.unpackMessage (Codec0 := C) packed)
  = Throw (Error (js "BUFFER_SHORTAGE")).
Proof.
  apply (unpack_pack_short_header (Codec0 := UintCodec.codec) xc8
           (replicate 30 x07) [xcc; xc8]); [simpl; lia | reflexivity].
Defined.

Lemma xHMAC_packed_body_witness :
  @xHMAC byte UintCodec.codec (fun key data => key ++ data) xc8 [x01]
  = Ok ([x01] ++ [xcc; xc8]).
Proof.
  apply (@xHMAC_packed_body byte UintCodec.codec (fun key data => key ++ data)
           xc8 [x01] (replicate 32 x07) (replicate 32 x07 ++ [xcc; xc8]));
    reflexivity.
Defined.

(** ** Odd lengths and array lengths *)

Lemma hex_single (c d : N) :
  hex_value c = Some d -> ToUint8 (parseInt16 [c]) = of_Z (Z.of_N d).
Proof.
  intros Hd. assert (H : is_hex_digit c = true)
    by (unfold is_hex_digit; now rewrite Hd).
  hex_enum H; injection Hd as <-; reflexivity.
Qed.

(** A hex string of odd length is not read as if a zero stood in front of
    it: the last digit alone makes the last byte. For [s] of even length,
    [decodeHex(s + c)] is [decodeHex(s)] followed by the value of [c]. *)
Theorem decodeHex_odd (s : jsstring) (c d : N) :
  Nat.even (length s) = true ->
  hex_string s ->
  hex_value c = Some d ->
  XUtils.decodeHex (s ++ [c])
  = bytes ← XUtils.decodeHex s; Ok (bytes ++ [of_Z (Z.of_N d)]).
Proof.
  intros Heven Hs Hd.
  assert (Hc : is_hex_digit c = true) by (unfold is_hex_digit; now rewrite Hd).
  rewrite decodeHex_split; [|exact Heven|apply hex_string_no_terminator, Hs|].
  2:{ repeat constructor. apply hex_not_terminator, Hc. }
  rewrite (decodeHex_pairs [c])
    by (repeat constructor; apply hex_not_terminator, Hc).
  destruct (XUtils.decodeHex s) as [bytes|e]; [|reflexivity].
  cbn [mbind result_bind pairs map]. rewrite xConcat_concat.
  cbn [concat]. now rewrite app_nil_r, (hex_single c d Hd).
Qed.

Lemma decodeHex_odd_witness :
  XUtils.decodeHex (js "ab" ++ [99%N])
  = bytes ← XUtils.decodeHex (js "ab"); Ok (bytes ++ [of_Z (Z.of_N 12)]).
Proof.
  apply (decodeHex_odd (js "ab") 99%N 12%N); [reflexivity| |reflexivity].
  repeat constructor.
Defined.

(** [uint8ArrToNumber] answers for arrays of one to six bytes, with the
    number the bytes denote most significant byte first, which is never
    negative and stays below [2^48]; on the empty array and on more than
    six bytes it raises a [RangeError]. *)
Theorem uint8ArrToNumber_outcome (arr : list byte) :
  ((1 <= length arr <= 6)%nat ->
   XUtils.uint8ArrToNumber arr = Ok (big_endian arr) /\
   0 <= big_endian arr < 256 ^ Z.of_nat (length arr) /\
   big_endian arr < 2 ^ 48) /\
  ((length arr = 0 \/ 6 < length arr)%nat ->
   XUtils.uint8ArrToNumber arr = Throw RangeError).
Proof.
  split.
  - intros H. split; [apply uint8ArrToNumber_big_endian, H|].
    pose proof (big_endian_bound arr) as Hb. split; [exact Hb|].
    assert (256 ^ Z.of_nat (length arr) <= 256 ^ 6)
      by (apply Z.pow_le_mono_r; lia).
    change (256 ^ 6) with (2 ^ 48) in *. lia.
  - intros H. unfold XUtils.uint8ArrToNumber, readUIntBE.
    destruct (Nat.leb_spec 1 (length arr)); [|reflexivity].
    destruct (Nat.leb_spec (length arr) 6); [lia|reflexivity].
Qed.

Lemma uint8ArrToNumber_outcome_witness :
  XUtils.uint8ArrToNumber [x01; x00] = Ok 256 /\
  XUtils.uint8ArrToNumber [] = Throw RangeError.
Proof.
  split.
  - apply (proj1 (uint8ArrToNumber_outcome [x01; x00])). simpl. lia.
  - apply (proj2 (uint8ArrToNumber_outcome [])). left. reflexivity.
Defined.
